(** * arch/riscv/lib/string.c: word-at-a-time memcpy and overlap-aware memmove

    A shallow embedding of [__memcpy] and [__memmove] over a byte-addressed,
    little-endian memory, with every load and store recorded in an access
    trace, followed by the properties of the two routines. *)

From Stdlib Require Import ZArith List Lia Bool.
From coqutil Require Import Byte Word.LittleEndianList.
Import ListNotations.
Local Open Scope Z_scope.

(* ===================================================================== *)
(** ** Target configuration *)

(** RISC-V Linux is built either for RV32 (ILP32) or RV64 (LP64):
    [long], [size_t] and [uintptr_t] all have [BITS_PER_LONG] bits. *)
Inductive xlen : Type := RV32 | RV64.

Record config : Type := Config {
  cfg_xlen : xlen;
  (** IS_ENABLED(CONFIG_HAVE_EFFICIENT_UNALIGNED_ACCESS) *)
  HAVE_EFFICIENT_UNALIGNED_ACCESS : bool
}.

Definition BITS_PER_LONG (c : config) : Z :=
  match cfg_xlen c with RV32 => 32 | RV64 => 64 end.

(** [#define MIN_THRESHOLD (BITS_PER_LONG / 8 * 2)] *)
Definition MIN_THRESHOLD (c : config) : Z := BITS_PER_LONG c / 8 * 2.

(** [static const unsigned int bytes_long = sizeof(long);] *)
Definition bytes_long (c : config) : Z := BITS_PER_LONG c / 8.

(** [static const unsigned int mask = bytes_long - 1;] *)
Definition mask (c : config) : Z := bytes_long c - 1.

(** Arithmetic on [size_t], [uintptr_t] and [unsigned long] wraps. *)
Definition modulus (c : config) : Z := 2 ^ BITS_PER_LONG c.
Definition wrap (c : config) (x : Z) : Z := x mod modulus c.

(** [sizeof(long)] as a number of bytes, for list lengths. *)
Definition word_len (c : config) : nat := Z.to_nat (bytes_long c).

(* ===================================================================== *)
(** ** Memory and accesses *)

Definition memory : Type := Z -> byte.

Inductive access : Type :=
| Load (addr width : Z)
| Store (addr width : Z).

(** [*(u8 * )a = b] *)
Definition store_u8 (m : memory) (a : Z) (b : byte) : memory :=
  fun x => if x =? a then b else m x.

Definition load_bytes (m : memory) (a : Z) (n : nat) : list byte :=
  map (fun i => m (a + Z.of_nat i)) (seq 0 n).

Definition store_bytes (m : memory) (a : Z) (bs : list byte) : memory :=
  fun x =>
    if (a <=? x) && (x <? a + Z.of_nat (length bs))
    then nth (Z.to_nat (x - a)) bs Byte.x00
    else m x.

(** [*(unsigned long * )a] on a little-endian machine. *)
Definition load_ulong (c : config) (m : memory) (a : Z) : Z :=
  le_combine (load_bytes m a (word_len c)).

(** [*(unsigned long * )a = v] on a little-endian machine. *)
Definition store_ulong (c : config) (m : memory) (a : Z) (v : Z) : memory :=
  store_bytes m a (le_split (word_len c) v).

(* ===================================================================== *)
(** ** Execution state of one call *)

(** The locals [s], [d] (the unions, seen through [as_uptr]) and [count],
    together with the memory and the accesses performed so far. *)
Record frame : Type := Frame {
  s : Z;
  d : Z;
  count : Z;
  mem : memory;
  trace : list access
}.

(** What a call leaves behind: the returned pointer, the memory and the
    accesses in program order. *)
Record result : Type := Result {
  ret : Z;
  mem_after : memory;
  accesses : list access
}.

Definition finish (dest : Z) (f : frame) : result :=
  {| ret := dest; mem_after := mem f; accesses := trace f |}.

Definition bind {A B : Type} (x : option A) (k : A -> option B) : option B :=
  match x with Some a => k a | None => None end.

Notation "x <- e ;; k" := (bind e (fun x => k))
  (at level 61, e at next level, right associativity).

(** [count--] *)
Definition dec_count (c : config) (f : frame) : frame :=
  {| s := s f; d := d f; count := wrap c (count f - 1);
     mem := mem f; trace := trace f |}.

(** [*d.as_u8++ = *s.as_u8++;] *)
Definition copy_u8 (c : config) (f : frame) : frame :=
  {| s := wrap c (s f + 1);
     d := wrap c (d f + 1);
     count := count f;
     mem := store_u8 (mem f) (d f) (mem f (s f));
     trace := trace f ++ [Load (s f) 1; Store (d f) 1] |}.

(** [*d.as_ulong++ = *s.as_ulong++;] *)
Definition copy_ulong (c : config) (f : frame) : frame :=
  {| s := wrap c (s f + bytes_long c);
     d := wrap c (d f + bytes_long c);
     count := count f;
     mem := store_ulong c (mem f) (d f) (load_ulong c (mem f) (s f));
     trace := trace f ++ [Load (s f) (bytes_long c); Store (d f) (bytes_long c)] |}.

(** [count -= bytes_long] *)
Definition sub_count (c : config) (f : frame) : frame :=
  {| s := s f; d := d f; count := wrap c (count f - bytes_long c);
     mem := mem f; trace := trace f |}.

(* ===================================================================== *)
(** ** __memcpy *)

(** [for (; d.as_uptr & mask; count--) *d.as_u8++ = *s.as_u8++;] *)
Fixpoint align_loop (c : config) (fuel : nat) (f : frame) : option frame :=
  match fuel with
  | O => None
  | S fuel' =>
      if Z.land (d f) (mask c) =? 0 then Some f
      else align_loop c fuel' (dec_count c (copy_u8 c f))
  end.

(** The value merged from the sliding pair:
    [last >> (distance * 8) | next << ((bytes_long - distance) * 8)]. *)
Definition merge (c : config) (distance last next : Z) : Z :=
  Z.lor (Z.shiftr last (distance * 8))
        (wrap c (Z.shiftl next ((bytes_long c - distance) * 8))).

(** One turn of the shifted loop body (lines 65-72); returns the new [next]. *)
Definition shift_body (c : config) (distance next : Z) (f : frame) : Z * frame :=
  let last := next in
  let a := wrap c (s f + bytes_long c) in
  let next := load_ulong c (mem f) a in
  (next,
   {| s := wrap c (s f + bytes_long c);
      d := wrap c (d f + bytes_long c);
      count := count f;
      mem := store_ulong c (mem f) (d f) (merge c distance last next);
      trace := trace f ++ [Load a (bytes_long c); Store (d f) (bytes_long c)] |}).

(** [for (; count >= bytes_long + mask; count -= bytes_long) { ... }] *)
Fixpoint shift_loop (c : config) (distance : Z) (fuel : nat) (next : Z) (f : frame)
  : option frame :=
  match fuel with
  | O => None
  | S fuel' =>
      if count f >=? bytes_long c + mask c then
        let '(next', f') := shift_body c distance next f in
        shift_loop c distance fuel' next' (sub_count c f')
      else Some f
  end.

(** The [if (distance) { ... }] block, lines 48-76. *)
Definition shifted_copy (c : config) (fuel : nat) (distance : Z) (f : frame)
  : option frame :=
  (* s.as_u8 -= distance; *)
  let s0 := wrap c (s f - distance) in
  (* next = s.as_ulong[0]; *)
  let next := load_ulong c (mem f) s0 in
  let f0 := {| s := s0; d := d f; count := count f; mem := mem f;
               trace := trace f ++ [Load s0 (bytes_long c)] |} in
  f1 <- shift_loop c distance fuel next f0 ;;
  (* s.as_u8 += distance; *)
  Some {| s := wrap c (s f1 + distance); d := d f1; count := count f1;
          mem := mem f1; trace := trace f1 |}.

(** [for (; count >= bytes_long; count -= bytes_long)
       *d.as_ulong++ = *s.as_ulong++;] *)
Fixpoint word_loop (c : config) (fuel : nat) (f : frame) : option frame :=
  match fuel with
  | O => None
  | S fuel' =>
      if count f >=? bytes_long c then
        word_loop c fuel' (sub_count c (copy_ulong c f))
      else Some f
  end.

(** Lines 40-46: the destination alignment fixup, skipped when the target
    has efficient unaligned access. *)
Definition align_dest (c : config) (fuel : nat) (f : frame) : option frame :=
  if negb (HAVE_EFFICIENT_UNALIGNED_ACCESS c) then align_loop c fuel f
  else Some f.

(** The value of [distance] when line 48 tests it. *)
Definition distance_of (c : config) (f : frame) : Z :=
  if negb (HAVE_EFFICIENT_UNALIGNED_ACCESS c) then Z.land (s f) (mask c)
  else 0.

(** Lines 37-84: everything before the label [copy_remainder]. *)
Definition memcpy_words (c : config) (fuel : nat) (f : frame) : option frame :=
  if count f <? MIN_THRESHOLD c then Some f
  else
    f1 <- align_dest c fuel f ;;
    let distance := distance_of c f1 in
    if negb (distance =? 0) then shifted_copy c fuel distance f1
    else word_loop c fuel f1.

(** [copy_remainder: while (count--) *d.as_u8++ = *s.as_u8++;] *)
Fixpoint copy_remainder (c : config) (fuel : nat) (f : frame) : option frame :=
  match fuel with
  | O => None
  | S fuel' =>
      if count f =? 0 then Some (dec_count c f)
      else copy_remainder c fuel' (copy_u8 c (dec_count c f))
  end.

(** The frame on entry: [s = { .as_u8 = src }], [d = { .as_u8 = dest }]. *)
Definition entry (m : memory) (dest src n : Z) : frame :=
  {| s := src; d := dest; count := n; mem := m; trace := [] |}.

Definition __memcpy (c : config) (fuel : nat) (m : memory) (dest src n : Z)
  : option result :=
  f1 <- memcpy_words c fuel (entry m dest src n) ;;
  f2 <- copy_remainder c fuel f1 ;;
  Some (finish dest f2).

(** [memcpy] is the weak alias of [__memcpy]. *)
Definition memcpy := __memcpy.

(* ===================================================================== *)
(** ** __memmove *)

(** [*--tmp = *--s;] with [tmp] held in the frame's [d]. *)
Definition copy_u8_back (c : config) (f : frame) : frame :=
  let s' := wrap c (s f - 1) in
  let tmp' := wrap c (d f - 1) in
  {| s := s'; d := tmp'; count := count f;
     mem := store_u8 (mem f) tmp' (mem f s');
     trace := trace f ++ [Load s' 1; Store tmp' 1] |}.

(** [while (count--) *--tmp = *--s;] *)
Fixpoint back_loop (c : config) (fuel : nat) (f : frame) : option frame :=
  match fuel with
  | O => None
  | S fuel' =>
      if count f =? 0 then Some (dec_count c f)
      else back_loop c fuel' (copy_u8_back c (dec_count c f))
  end.

Definition __memmove (c : config) (fuel : nat) (m : memory) (dest src n : Z)
  : option result :=
  if (dest <? src) || (wrap c (src + n) <=? dest) then
    memcpy c fuel m dest src n
  else if dest >? src then
    (* const char *s = src + count; char *tmp = dest + count; *)
    f <- back_loop c fuel
           {| s := wrap c (src + n); d := wrap c (dest + n); count := n;
              mem := m; trace := [] |} ;;
    Some (finish dest f)
  else
    Some {| ret := dest; mem_after := m; accesses := [] |}.

Definition memmove := __memmove.

(* ===================================================================== *)
(** ** Vocabulary of the specification *)

(** Both regions of the frame lie inside the address space, so that no
    pointer or counter of the call wraps. *)
Definition valid (c : config) (f : frame) : Prop :=
  0 <= count f /\ 0 <= s f /\ 0 <= d f /\
  s f + count f < modulus c /\ d f + count f < modulus c.

(** An ascending copy never overwrites a source byte it still has to read:
    the destination starts at or below the source, or lies past its end. *)
Definition fwd_safe (f : frame) : Prop :=
  d f <= s f \/ s f + count f <= d f.

(** An access that stays below the end of the source (loads) or inside the
    destination (stores) that remain to be copied in frame [f]. *)
Definition in_bounds (f : frame) (e : access) : Prop :=
  match e with
  | Load a w => a + w <= s f + count f
  | Store a w => d f <= a /\ a + w <= d f + count f
  end.

(** From frame [f] the code reached [f'] having copied the next [k] bytes.
    The bytes written are known to be the original source bytes when [safe]
    holds, the caller's guarantee that an ascending copy is harmless. *)
Record copied (safe : Prop) (f f' : frame) (k : Z) : Prop := {
  cp_k : 0 <= k <= count f;
  cp_s : s f' = s f + k;
  cp_d : d f' = d f + k;
  cp_count : count f' = count f - k;
  cp_frame : forall a, ~ (d f <= a < d f + k) -> mem f' a = mem f a;
  cp_data : safe ->
            forall i, 0 <= i < k -> mem f' (d f + i) = mem f (s f + i);
  cp_trace : exists evs, trace f' = trace f ++ evs /\ Forall (in_bounds f) evs
}.

Arguments cp_k {safe f f' k}.
Arguments cp_s {safe f f' k}.
Arguments cp_d {safe f f' k}.
Arguments cp_count {safe f f' k}.
Arguments cp_frame {safe f f' k}.
Arguments cp_data {safe f f' k}.
Arguments cp_trace {safe f f' k}.

(** Inside the [if (distance)] block [s] is kept [distance] bytes behind the
    next source byte; [unshift] is the frame seen with [s] restored. *)
Definition unshift (distance : Z) (g : frame) : frame :=
  {| s := s g + distance; d := d g; count := count g;
     mem := mem g; trace := trace g |}.

(** [next] holds the word at [s]; its bytes from [distance] upwards are the
    source bytes still to be written. *)
Definition next_ok (c : config) (distance next : Z) (g : frame) : Prop :=
  exists L, length L = word_len c /\ next = le_combine L /\
            forall j, distance <= j < bytes_long c ->
                      nth (Z.to_nat j) L Byte.x00 = mem g (s g + j).


(** A region of [n] bytes at [a] that lies inside the address space and
    stops short of its last byte, so that [a + n] is a pointer too. *)
Definition region (c : config) (a n : Z) : Prop :=
  0 <= n /\ 0 <= a /\ a + n < modulus c.

(** *** Reference copies, written from the specification *)

(** Byte-by-byte ascending copy of [n] bytes. *)
Fixpoint bytewise_copy (n : nat) (m : memory) (dest src : Z) : memory :=
  match n with
  | O => m
  | S k => bytewise_copy k (store_u8 m dest (m src)) (dest + 1) (src + 1)
  end.

Fixpoint bytewise_accesses (n : nat) (dest src : Z) : list access :=
  match n with
  | O => []
  | S k => Load src 1 :: Store dest 1 :: bytewise_accesses k (dest + 1) (src + 1)
  end.

(** Byte-by-byte copy of [n] bytes from the last byte back to the first. *)
Fixpoint backward_copy (n : nat) (m : memory) (dest src : Z) : memory :=
  match n with
  | O => m
  | S k =>
      backward_copy k
        (store_u8 m (dest + Z.of_nat k) (m (src + Z.of_nat k))) dest src
  end.

Fixpoint backward_accesses (n : nat) (dest src : Z) : list access :=
  match n with
  | O => []
  | S k =>
      Load (src + Z.of_nat k) 1 :: Store (dest + Z.of_nat k) 1
        :: backward_accesses k dest src
  end.

(** One load-store pair per word, ascending, for [n] words. *)
Fixpoint word_accesses (c : config) (n : nat) (dest src : Z) : list access :=
  match n with
  | O => []
  | S k =>
      Load src (bytes_long c) :: Store dest (bytes_long c)
        :: word_accesses c k (dest + bytes_long c) (src + bytes_long c)
  end.

(** One look-ahead load and one store per word, for [n] turns of the
    shifted loop entered with the aligned source pointer [s]. *)
Fixpoint shifted_accesses (c : config) (n : nat) (d s : Z) : list access :=
  match n with
  | O => []
  | S k =>
      Load (s + bytes_long c) (bytes_long c) :: Store d (bytes_long c)
        :: shifted_accesses c k (d + bytes_long c) (s + bytes_long c)
  end.

(** The number of bytes the alignment loop of lines 42-43 copies. *)
Definition fixup_bytes (c : config) (dest : Z) : Z :=
  if HAVE_EFFICIENT_UNALIGNED_ACCESS c then 0 else (- dest) mod bytes_long c.

(** The number of turns of the shifted loop entered with [n1] bytes left. *)
Definition shifted_turns (c : config) (n1 : Z) : Z :=
  (n1 - mask c) / bytes_long c.

(** The accesses from line 48 to the end, entered with [d1], [s1] and [n1]
    bytes left: the direct word loop or the shifted block, then the byte
    remainder. *)
Definition word_phase_accesses (c : config) (d1 s1 n1 : Z) : list access :=
  if HAVE_EFFICIENT_UNALIGNED_ACCESS c || (s1 mod bytes_long c =? 0) then
    word_accesses c (Z.to_nat (n1 / bytes_long c)) d1 s1 ++
    bytewise_accesses (Z.to_nat (n1 mod bytes_long c))
      (d1 + bytes_long c * (n1 / bytes_long c))
      (s1 + bytes_long c * (n1 / bytes_long c))
  else
    Load (s1 - s1 mod bytes_long c) (bytes_long c)
      :: shifted_accesses c (Z.to_nat (shifted_turns c n1)) d1
           (s1 - s1 mod bytes_long c)
      ++ bytewise_accesses (Z.to_nat (n1 - shifted_turns c n1 * bytes_long c))
           (d1 + shifted_turns c n1 * bytes_long c)
           (s1 + shifted_turns c n1 * bytes_long c).

(** The accesses of a whole [__memcpy], in program order, as a function of
    the configuration and the three arguments alone. *)
Definition memcpy_accesses (c : config) (dest src n : Z) : list access :=
  if n <? MIN_THRESHOLD c then bytewise_accesses (Z.to_nat n) dest src
  else
    bytewise_accesses (Z.to_nat (fixup_bytes c dest)) dest src ++
    word_phase_accesses c (dest + fixup_bytes c dest)
      (src + fixup_bytes c dest) (n - fixup_bytes c dest).

(** A word-sized access is word-aligned. *)
Definition word_aligned (c : config) (e : access) : Prop :=
  match e with
  | Load a w | Store a w => w = bytes_long c -> a mod bytes_long c = 0
  end.

(** A load does not start below [lo]. *)
Definition load_not_below (lo : Z) (e : access) : Prop :=
  match e with
  | Load a _ => lo <= a
  | Store _ _ => True
  end.

(** The addresses [a], [a + 1], ..., [a + n - 1]. *)
Definition byte_range (a : Z) (n : nat) : list Z :=
  map (fun i => a + Z.of_nat i) (seq 0 n).

(** The byte addresses written by a sequence of accesses, in the order in
    which they are written (a word store writes its bytes together; they
    are listed upwards). *)
Fixpoint stored_bytes (t : list access) : list Z :=
  match t with
  | [] => []
  | Load _ _ :: t' => stored_bytes t'
  | Store a w :: t' => byte_range a (Z.to_nat w) ++ stored_bytes t'
  end.

(** Move semantics: every source byte is read, then every destination byte
    is written. *)
Definition read_all_write_all (m : memory) (dest src n : Z) : memory :=
  store_bytes m dest (load_bytes m src (Z.to_nat n)).

(** Where stores may land and where loads must end, for a call on
    [dest], [src], [n]. *)
Definition store_in_dest (dest n : Z) (e : access) : Prop :=
  match e with
  | Load _ _ => True
  | Store a w => dest <= a /\ a + w <= dest + n
  end.

Definition load_below_end (src n : Z) (e : access) : Prop :=
  match e with
  | Load a w => a + w <= src + n
  | Store _ _ => True
  end.

(** *** Concrete targets and a memory holding a known pattern *)

Definition rv64 : config :=
  {| cfg_xlen := RV64; HAVE_EFFICIENT_UNALIGNED_ACCESS := false |}.

Definition rv32 : config :=
  {| cfg_xlen := RV32; HAVE_EFFICIENT_UNALIGNED_ACCESS := false |}.

Definition rv64_unaligned_ok : config :=
  {| cfg_xlen := RV64; HAVE_EFFICIENT_UNALIGNED_ACCESS := true |}.

Definition pattern : memory := fun a => byte.of_Z a.

(** A memory whose bytes at 8195, 8196, ... are 0x01, 0x02, ... *)
Definition counting : memory := fun a => byte.of_Z (a - 8194).

(** The bytes of [r]'s memory in [a[0..n)], as numbers. *)
Definition dump (a : Z) (n : nat) (r : option result) : option (list Z) :=
  option_map (fun r => map byte.unsigned (load_bytes (mem_after r) a n)) r.

(* ===================================================================== *)
(** ** Facts about the configuration constants *)

Lemma word_facts (c : config) :
  (bytes_long c = 4 /\ modulus c = 4294967296) \/
  (bytes_long c = 8 /\ modulus c = 18446744073709551616).
Proof. destruct c as [[|] e]; [left | right]; split; reflexivity. Qed.

Lemma mask_eq (c : config) : mask c = bytes_long c - 1.
Proof. reflexivity. Qed.

Lemma MIN_THRESHOLD_eq (c : config) : MIN_THRESHOLD c = 2 * bytes_long c.
Proof. destruct c as [[|] e]; reflexivity. Qed.

Lemma bits_eq (c : config) : BITS_PER_LONG c = bytes_long c * 8.
Proof. destruct c as [[|] e]; reflexivity. Qed.

Lemma word_len_eq (c : config) : Z.of_nat (word_len c) = bytes_long c.
Proof. destruct c as [[|] e]; reflexivity. Qed.

Lemma land_mask (c : config) (x : Z) : Z.land x (mask c) = x mod bytes_long c.
Proof.
  destruct c as [[|] e]; unfold mask, bytes_long, BITS_PER_LONG; cbn.
  - change 3 with (Z.ones 2). now rewrite Z.land_ones by lia.
  - change 7 with (Z.ones 3). now rewrite Z.land_ones by lia.
Qed.

Lemma wrap_small (c : config) (x : Z) : 0 <= x < modulus c -> wrap c x = x.
Proof. intros H. unfold wrap. now apply Z.mod_small. Qed.

(** Case split on the word size, turning the constants into numerals. *)
Ltac word_cases c :=
  let HW := fresh "HW" in
  let HM := fresh "HM" in
  pose proof (mask_eq c);
  pose proof (MIN_THRESHOLD_eq c);
  destruct (word_facts c) as [[HW HM] | [HW HM]].

(* ===================================================================== *)
(** ** Facts about memory accesses *)

Lemma store_u8_same m a b : store_u8 m a b a = b.
Proof. unfold store_u8. now rewrite Z.eqb_refl. Qed.

Lemma store_u8_other m a b x : x <> a -> store_u8 m a b x = m x.
Proof. intros H. unfold store_u8. destruct (Z.eqb_spec x a); congruence. Qed.

Lemma load_bytes_length m a n : length (load_bytes m a n) = n.
Proof. unfold load_bytes. now rewrite length_map, length_seq. Qed.

Lemma load_bytes_nth m a n i :
  (i < n)%nat -> nth i (load_bytes m a n) Byte.x00 = m (a + Z.of_nat i).
Proof.
  intros H. unfold load_bytes.
  set (f := fun i : nat => m (a + Z.of_nat i)).
  rewrite nth_indep with (d' := f O) by now rewrite length_map, length_seq.
  rewrite map_nth, seq_nth by assumption. reflexivity.
Qed.

Lemma load_bytes_ext m m' a a' n :
  (forall i, 0 <= i < Z.of_nat n -> m (a + i) = m' (a' + i)) ->
  load_bytes m a n = load_bytes m' a' n.
Proof.
  intros H. unfold load_bytes. apply map_ext_in.
  intros i Hi. apply in_seq in Hi. apply H. lia.
Qed.

Lemma store_bytes_in m a bs x :
  a <= x < a + Z.of_nat (length bs) ->
  store_bytes m a bs x = nth (Z.to_nat (x - a)) bs Byte.x00.
Proof.
  intros H. unfold store_bytes.
  destruct (Z.leb_spec a x); [|lia].
  destruct (Z.ltb_spec x (a + Z.of_nat (length bs))); [|lia].
  reflexivity.
Qed.

Lemma store_bytes_out m a bs x :
  ~ (a <= x < a + Z.of_nat (length bs)) -> store_bytes m a bs x = m x.
Proof.
  intros H. unfold store_bytes.
  destruct (Z.leb_spec a x); [|reflexivity].
  destruct (Z.ltb_spec x (a + Z.of_nat (length bs))); [lia|reflexivity].
Qed.

Lemma store_ulong_out c m a v x :
  ~ (a <= x < a + bytes_long c) -> store_ulong c m a v x = m x.
Proof.
  intros H. unfold store_ulong. apply store_bytes_out.
  now rewrite length_le_split, word_len_eq.
Qed.

Lemma store_ulong_in c m a bs i :
  length bs = word_len c -> 0 <= i < bytes_long c ->
  store_ulong c m a (le_combine bs) (a + i) = nth (Z.to_nat i) bs Byte.x00.
Proof.
  intros Hl Hi. unfold store_ulong.
  rewrite split_le_combine' by assumption.
  rewrite store_bytes_in by (rewrite Hl, word_len_eq; lia).
  f_equal. lia.
Qed.

(** Storing the word just loaded writes back the bytes that were read. *)
Lemma store_load_ulong c m m' a b i :
  0 <= i < bytes_long c ->
  store_ulong c m' a (load_ulong c m b) (a + i) = m (b + i).
Proof.
  intros Hi. unfold load_ulong.
  rewrite store_ulong_in by (auto using load_bytes_length).
  rewrite load_bytes_nth by (pose proof (word_len_eq c); lia).
  f_equal. lia.
Qed.

(* ===================================================================== *)
(** ** The little-endian merge of two adjacent words *)

Lemma le_combine_skipn (n : nat) (bs : list byte) :
  le_combine (skipn n bs) = Z.shiftr (le_combine bs) (Z.of_nat n * 8).
Proof.
  destruct (Nat.le_gt_cases n (length bs)) as [Hle | Hgt].
  - rewrite <- (split_le_combine bs) at 1.
    rewrite skipn_le_split by assumption.
    rewrite le_combine_split.
    replace (8 * Z.of_nat n) with (Z.of_nat n * 8) by lia.
    apply Z.mod_small.
    pose proof (le_combine_bound bs) as Hb.
    rewrite Z.shiftr_div_pow2 by lia.
    replace (8 * Z.of_nat (length bs))
      with (Z.of_nat n * 8 + Z.of_nat (length bs - n) * 8) in Hb by lia.
    rewrite Z.pow_add_r in Hb by lia.
    split.
    + apply Z.div_pos; [lia | apply Z.pow_pos_nonneg; lia].
    + apply Z.div_lt_upper_bound; [apply Z.pow_pos_nonneg; lia | lia].
  - rewrite skipn_all2 by lia. cbn.
    pose proof (le_combine_bound bs) as Hb.
    rewrite Z.shiftr_div_pow2 by lia.
    symmetry. apply Z.div_small. split; [lia|].
    eapply Z.lt_le_trans; [apply Hb|].
    apply Z.pow_le_mono_r; lia.
Qed.

Lemma merge_bytes c (distance : Z) (L L' : list byte) :
  length L = word_len c -> length L' = word_len c ->
  0 < distance < bytes_long c ->
  merge c distance (le_combine L) (le_combine L') =
  le_combine (skipn (Z.to_nat distance) L ++ firstn (Z.to_nat distance) L').
Proof.
  intros HL HL' Hd. pose proof (word_len_eq c) as HW.
  unfold merge. rewrite le_combine_app, le_combine_skipn.
  rewrite Z2Nat.id by lia. f_equal.
  rewrite length_skipn, HL, le_combine_firstn.
  replace (Z.of_nat (word_len c - Z.to_nat distance) * 8)
    with ((bytes_long c - distance) * 8) by lia.
  unfold wrap, modulus. rewrite bits_eq.
  replace (bytes_long c * 8)
    with (8 * Z.of_nat (Z.to_nat distance) + (bytes_long c - distance) * 8) by lia.
  rewrite Z.pow_add_r by lia.
  rewrite !Z.shiftl_mul_pow2 by lia.
  rewrite Z.mul_mod_distr_r; [reflexivity | |]; apply Z.pow_nonzero; lia.
Qed.

(* ===================================================================== *)
(** ** Forward phases *)

Ltac zlia := Z.to_euclidean_division_equations; lia.

Section Forward.

Variable c : config.
Variable safe : Prop.

Lemma copied_refl (f : frame) : 0 <= count f -> copied safe f f 0.
Proof.
  intros H. constructor; try lia.
  - reflexivity.
  - exists []. now rewrite app_nil_r.
Qed.

Lemma copied_valid f f' k : valid c f -> copied safe f f' k -> valid c f'.
Proof.
  unfold valid. intros Hv [Hk Hs Hd Hc _ _ _]. rewrite Hs, Hd, Hc. lia.
Qed.

Lemma copied_fwd_safe f f' k :
  copied safe f f' k -> fwd_safe f -> fwd_safe f'.
Proof.
  unfold fwd_safe. intros [Hk Hs Hd Hc _ _ _] Hv. rewrite Hs, Hd, Hc. lia.
Qed.

Lemma in_bounds_later f f' k e :
  copied safe f f' k -> in_bounds f' e -> in_bounds f e.
Proof.
  intros [Hk Hs Hd Hc _ _ _]. destruct e; cbn; lia.
Qed.

(** Phases compose, as long as the caller's guarantee covers the first. *)
Lemma copied_trans f f1 f2 k1 k2 :
  (safe -> fwd_safe f) ->
  copied safe f f1 k1 -> copied safe f1 f2 k2 -> copied safe f f2 (k1 + k2).
Proof.
  intros Hsafe H1 H2.
  pose proof (fun e => in_bounds_later f f1 k1 e H1) as Hb.
  destruct H1 as [Hk1 Hs1 Hd1 Hc1 Hf1 Hdat1 (ev1 & Ht1 & Hev1)].
  destruct H2 as [Hk2 Hs2 Hd2 Hc2 Hf2 Hdat2 (ev2 & Ht2 & Hev2)].
  constructor; try lia.
  - intros a Ha. rewrite Hf2 by lia. apply Hf1. lia.
  - intros Hs i Hi.
    destruct (Z_lt_le_dec i k1) as [Hlt | Hge].
    + rewrite Hf2 by lia. apply Hdat1; [assumption | lia].
    + replace (d f + i) with (d f1 + (i - k1)) by lia.
      rewrite Hdat2 by (assumption || lia).
      rewrite Hs1. replace (s f + k1 + (i - k1)) with (s f + i) by lia.
      apply Hf1. specialize (Hsafe Hs). unfold fwd_safe in Hsafe. lia.
  - exists (ev1 ++ ev2). split.
    + now rewrite Ht2, Ht1, app_assoc.
    + apply Forall_app. split; [assumption|].
      eapply Forall_impl; [|exact Hev2]. exact Hb.
Qed.

(** A frame that agrees with [f'] on every field has copied as much. *)
Lemma copied_eq f f' g k :
  copied safe f f' k ->
  s g = s f' -> d g = d f' -> count g = count f' ->
  mem g = mem f' -> trace g = trace f' ->
  copied safe f g k.
Proof.
  intros [Hk Hs Hd Hc Hf Hdat Htr] Es Ed Ec Em Et.
  constructor; rewrite ?Es, ?Ed, ?Ec, ?Em, ?Et; assumption.
Qed.

(** *** One byte *)

Lemma copy_u8_copied f :
  valid c f -> 0 < count f -> copied safe f (dec_count c (copy_u8 c f)) 1.
Proof.
  unfold valid. intros Hv Hc. word_cases c.
  all: constructor; cbn [s d count mem trace dec_count copy_u8]; try lia.
  all: try (apply wrap_small; lia).
  all: try (intros a Ha; apply store_u8_other; lia).
  all: try (intros _ i Hi; replace i with 0 by lia;
            rewrite !Z.add_0_r; apply store_u8_same).
  all: eexists; split; [reflexivity|];
       repeat constructor; cbn; lia.
Qed.

(** *** One word, loaded and stored directly *)

Lemma copy_ulong_copied f :
  valid c f -> bytes_long c <= count f ->
  copied safe f (sub_count c (copy_ulong c f)) (bytes_long c).
Proof.
  unfold valid. intros Hv Hc.
  assert (0 < bytes_long c /\ bytes_long c < modulus c) as HW
      by (word_cases c; lia).
  constructor; cbn [s d count mem trace sub_count copy_ulong]; try lia.
  all: try (apply wrap_small; lia).
  - intros a Ha. now apply store_ulong_out.
  - intros _ i Hi. now apply store_load_ulong.
  - eexists; split; [reflexivity|]. repeat constructor; cbn; lia.
Qed.

(** *** The remainder loop *)

Lemma copy_remainder_copied fuel :
  forall f, valid c f -> (safe -> fwd_safe f) -> count f < Z.of_nat fuel ->
  exists f', copy_remainder c fuel f = Some (dec_count c f') /\
             copied safe f f' (count f).
Proof.
  induction fuel as [|fuel IH]; intros f Hv Hsafe Hfuel.
  - unfold valid in Hv. lia.
  - cbn [copy_remainder].
    destruct (Z.eqb_spec (count f) 0) as [H0 | Hn0].
    + exists f. split; [reflexivity|]. rewrite H0.
      apply copied_refl. lia.
    + assert (0 < count f) as Hpos by (unfold valid in Hv; lia).
      pose proof (copy_u8_copied f Hv Hpos) as Hstep.
      destruct (IH (dec_count c (copy_u8 c f))) as (f' & Hrun & Hcp).
      * eapply copied_valid; eauto.
      * intros Hs. eapply copied_fwd_safe; eauto.
      * rewrite (cp_count Hstep). lia.
      * exists f'. split; [exact Hrun|].
        replace (count f) with (1 + count (dec_count c (copy_u8 c f)))
          by (rewrite (cp_count Hstep); lia).
        eapply copied_trans; eauto.
Qed.

(** *** The destination alignment loop *)

Lemma align_loop_copied fuel :
  forall f, valid c f -> (safe -> fwd_safe f) ->
  (- d f) mod bytes_long c <= count f ->
  (- d f) mod bytes_long c < Z.of_nat fuel ->
  exists f', align_loop c fuel f = Some f' /\
             copied safe f f' ((- d f) mod bytes_long c) /\
             d f' mod bytes_long c = 0.
Proof.
  induction fuel as [|fuel IH]; intros f Hv Hsafe Hcnt Hfuel.
  - word_cases c; rewrite HW in *; zlia.
  - cbn [align_loop]. rewrite land_mask.
    destruct (Z.eqb_spec (d f mod bytes_long c) 0) as [H0 | Hn0].
    + exists f. split; [reflexivity|]. split; [|assumption].
      replace ((- d f) mod bytes_long c) with 0
        by (word_cases c; rewrite HW in *; zlia).
      apply copied_refl. unfold valid in Hv. lia.
    + assert (0 < count f) as Hpos
          by (unfold valid in Hv; word_cases c; rewrite HW in *; zlia).
      pose proof (copy_u8_copied f Hv Hpos) as Hstep.
      set (f1 := dec_count c (copy_u8 c f)) in *.
      assert ((- d f1) mod bytes_long c = (- d f) mod bytes_long c - 1) as Hr.
      { rewrite (cp_d Hstep).
        word_cases c; rewrite HW in *; zlia. }
      destruct (IH f1) as (f' & Hrun & Hcp & Hal).
      * eapply copied_valid; eauto.
      * intros Hs. eapply copied_fwd_safe; eauto.
      * rewrite Hr, (cp_count Hstep). lia.
      * rewrite Hr. lia.
      * exists f'. split; [exact Hrun|]. split; [|exact Hal].
        replace ((- d f) mod bytes_long c)
          with (1 + (- d f1) mod bytes_long c) by lia.
        eapply copied_trans; eauto.
Qed.

(** *** The direct word loop *)

Lemma word_loop_copied fuel :
  forall f, valid c f -> (safe -> fwd_safe f) -> count f < Z.of_nat fuel ->
  exists f', word_loop c fuel f = Some f' /\
             copied safe f f' (bytes_long c * (count f / bytes_long c)) /\
             count f' = count f mod bytes_long c.
Proof.
  induction fuel as [|fuel IH]; intros f Hv Hsafe Hfuel.
  - unfold valid in Hv. lia.
  - cbn [word_loop].
    destruct (Z.geb_spec (count f) (bytes_long c)) as [Hge | Hlt].
    + pose proof (copy_ulong_copied f Hv Hge) as Hstep.
      set (f1 := sub_count c (copy_ulong c f)) in *.
      pose proof (cp_count Hstep) as Hc1.
      destruct (IH f1) as (f' & Hrun & Hcp & Hrem).
      * eapply copied_valid; eauto.
      * intros Hs. eapply copied_fwd_safe; eauto.
      * word_cases c; rewrite HW in *; lia.
      * exists f'. split; [exact Hrun|]. split.
        -- replace (bytes_long c * (count f / bytes_long c))
             with (bytes_long c + bytes_long c * (count f1 / bytes_long c))
             by (rewrite Hc1; word_cases c; rewrite HW in *; zlia).
           eapply copied_trans; eauto.
        -- rewrite Hrem, Hc1. word_cases c; rewrite HW in *; zlia.
    + exists f. split; [reflexivity|].
      assert (0 <= count f) by (unfold valid in Hv; lia).
      replace (count f / bytes_long c) with 0
        by (word_cases c; rewrite HW in *; zlia).
      rewrite Z.mul_0_r. split; [now apply copied_refl|].
      word_cases c; rewrite HW in *; zlia.
Qed.

(** *** The shifted word loop *)

Lemma shift_body_copied distance next g :
  0 < distance < bytes_long c -> 0 <= s g ->
  valid c (unshift distance g) ->
  (safe -> fwd_safe (unshift distance g)) ->
  bytes_long c + mask c <= count g ->
  (safe -> next_ok c distance next g) ->
  copied safe (unshift distance g)
         (unshift distance (sub_count c (snd (shift_body c distance next g))))
         (bytes_long c) /\
  (safe ->
   next_ok c distance (fst (shift_body c distance next g))
           (sub_count c (snd (shift_body c distance next g)))).
Proof.
  intros Hd Hs Hv Hsafe Hc Hnext.
  pose proof (word_len_eq c) as Hlen.
  assert (0 < bytes_long c /\ 2 * bytes_long c < modulus c) as HW
      by (word_cases c; lia).
  rewrite mask_eq in Hc.
  unfold valid in Hv. cbn [unshift s d count] in Hv.
  unfold shift_body, sub_count, unshift. cbn [fst snd s d count mem trace].
  rewrite !(wrap_small c (s g + bytes_long c)) by lia.
  rewrite !(wrap_small c (d g + bytes_long c)) by lia.
  rewrite !(wrap_small c (count g - bytes_long c)) by lia.
  split.
  - constructor; cbn [s d count mem trace]; try lia.
    + intros a Ha. now apply store_ulong_out.
    + intros Hfs i Hi.
      destruct (Hnext Hfs) as (L & HL & -> & HLn).
      unfold load_ulong.
      rewrite merge_bytes by (auto using load_bytes_length).
      rewrite store_ulong_in;
        [| rewrite length_app, length_skipn, length_firstn,
             load_bytes_length, HL; lia | lia].
      destruct (Z_lt_le_dec i (bytes_long c - distance)) as [Hlo | Hhi].
      * rewrite app_nth1 by (rewrite length_skipn; lia).
        rewrite nth_skipn.
        replace (Z.to_nat distance + Z.to_nat i)%nat
          with (Z.to_nat (distance + i)) by lia.
        rewrite HLn by lia. f_equal. lia.
      * rewrite app_nth2 by (rewrite length_skipn; lia).
        rewrite length_skipn, nth_firstn.
        destruct (Nat.ltb_spec (Z.to_nat i - (length L - Z.to_nat distance))
                               (Z.to_nat distance)); [|lia].
        rewrite load_bytes_nth by lia. f_equal. lia.
    + eexists; split; [reflexivity|]. repeat constructor; cbn; lia.
  - intros Hfs. specialize (Hsafe Hfs).
    exists (load_bytes (mem g) (s g + bytes_long c) (word_len c)).
    split; [apply load_bytes_length|]. split; [reflexivity|].
    intros j Hj. rewrite load_bytes_nth by lia.
    rewrite Z2Nat.id by lia. cbn [s mem].
    rewrite store_ulong_out; [reflexivity|].
    unfold fwd_safe in Hsafe. cbn [unshift s d count] in Hsafe. lia.
Qed.

Lemma shift_loop_copied distance fuel :
  forall next g,
  0 < distance < bytes_long c -> 0 <= s g ->
  valid c (unshift distance g) ->
  (safe -> fwd_safe (unshift distance g)) ->
  (safe -> next_ok c distance next g) ->
  count g < Z.of_nat fuel ->
  exists g' n,
    shift_loop c distance fuel next g = Some g' /\
    copied safe (unshift distance g) (unshift distance g') (n * bytes_long c) /\
    0 <= n /\
    count g' < bytes_long c + mask c /\
    (0 < n -> bytes_long c + mask c <= count g' + bytes_long c).
Proof.
  induction fuel as [|fuel IH]; intros next g Hd Hs Hv Hsafe Hnext Hfuel.
  - unfold valid in Hv. cbn [unshift count] in Hv. lia.
  - cbn [shift_loop].
    destruct (Z.geb_spec (count g) (bytes_long c + mask c)) as [Hge | Hlt].
    + destruct (shift_body_copied distance next g Hd Hs Hv Hsafe Hge Hnext)
        as [Hstep Hnext'].
      destruct (shift_body c distance next g) as [next' g1] eqn:E.
      cbn [fst snd] in Hstep, Hnext'.
      set (g2 := sub_count c g1) in *.
      pose proof (cp_count Hstep) as Hc2.
      pose proof (cp_s Hstep) as Hs2.
      cbn [unshift s count] in Hc2, Hs2.
      assert (0 < bytes_long c) as HW by (word_cases c; lia).
      destruct (IH next' g2) as (g' & n & Hrun & Hcp & Hn & Hex & Hlast).
      * assumption.
      * lia.
      * eapply copied_valid; eauto.
      * intros Hfs. eapply copied_fwd_safe; eauto.
      * assumption.
      * lia.
      * exists g', (1 + n). split; [exact Hrun|]. split; [|split; [lia|split]].
        -- replace ((1 + n) * bytes_long c)
             with (bytes_long c + n * bytes_long c) by lia.
           eapply copied_trans; eauto.
        -- exact Hex.
        -- intros _. destruct (Z.eq_dec n 0) as [-> | Hn0].
           ++ pose proof (cp_count Hcp) as Hc'.
              cbn [unshift count] in Hc'. lia.
           ++ apply Hlast. lia.
    + exists g, 0. split; [reflexivity|]. split; [|split; [lia|split; [lia|lia]]].
      cbn [Z.mul]. apply copied_refl.
      unfold valid in Hv. cbn [unshift count] in *. lia.
Qed.

Lemma shifted_copy_copied fuel distance f :
  valid c f -> (safe -> fwd_safe f) ->
  0 < distance < bytes_long c -> distance <= s f ->
  bytes_long c <= count f -> count f < Z.of_nat fuel ->
  exists f' n,
    shifted_copy c fuel distance f = Some f' /\
    copied safe f f' (n * bytes_long c) /\
    0 <= n /\
    count f' < bytes_long c + mask c /\
    (0 < n -> bytes_long c + mask c <= count f' + bytes_long c).
Proof.
  intros Hv Hsafe Hd Hs Hc Hfuel.
  pose proof (word_len_eq c) as Hlen.
  pose proof Hv as Hv'. unfold valid in Hv'.
  assert (bytes_long c < modulus c) as HW by (word_cases c; lia).
  unfold shifted_copy. rewrite (wrap_small c (s f - distance)) by lia.
  set (next := load_ulong c (mem f) (s f - distance)).
  set (f0 := {| s := s f - distance; d := d f; count := count f; mem := mem f;
                trace := trace f ++ [Load (s f - distance) (bytes_long c)] |}).
  assert (copied safe f (unshift distance f0) 0) as H0.
  { constructor; cbn [unshift f0 s d count mem trace]; try lia.
    - reflexivity.
    - eexists; split; [reflexivity|]. repeat constructor; cbn; lia. }
  destruct (shift_loop_copied distance fuel next f0)
    as (g' & n & Hrun & Hcp & Hn & Hex & Hlast).
  - assumption.
  - cbn [f0 s]. lia.
  - eapply copied_valid; eauto.
  - intros Hfs. eapply copied_fwd_safe; eauto.
  - intros _. exists (load_bytes (mem f) (s f - distance) (word_len c)).
    split; [apply load_bytes_length|]. split; [reflexivity|].
    intros j Hj. rewrite load_bytes_nth by lia.
    rewrite Z2Nat.id by lia. reflexivity.
  - cbn [f0 count]. assumption.
  - rewrite Hrun. cbn [bind].
    pose proof (copied_trans _ _ _ _ _ Hsafe H0 Hcp) as Hall.
    cbn [Z.add] in Hall.
    pose proof (copied_valid _ _ _ Hv Hall) as Hv2.
    unfold valid in Hv2. cbn [unshift s d count] in Hv2.
    eexists; exists n. split; [reflexivity|]. split; [|auto].
    eapply copied_eq; [exact Hall | | | | |]; cbn [unshift s d count mem trace];
      try reflexivity.
    apply wrap_small. lia.
Qed.

(** *** Everything before [copy_remainder] *)

Lemma memcpy_words_copied fuel f :
  valid c f -> (safe -> fwd_safe f) -> count f < Z.of_nat fuel ->
  exists f' k,
    memcpy_words c fuel f = Some f' /\
    copied safe f f' k /\
    (MIN_THRESHOLD c <= count f ->
     exists f1,
       align_dest c fuel f = Some f1 /\
       (distance_of c f1 = 0 -> count f' < bytes_long c) /\
       (distance_of c f1 <> 0 -> count f' < bytes_long c + mask c) /\
       (distance_of c f1 = 0 <->
        HAVE_EFFICIENT_UNALIGNED_ACCESS c = true \/
        (s f - d f) mod bytes_long c = 0)).
Proof.
  intros Hv Hsafe Hfuel. pose proof Hv as Hv'. unfold valid in Hv'.
  unfold memcpy_words.
  destruct (Z.ltb_spec (count f) (MIN_THRESHOLD c)) as [Hsmall | Hbig].
  { exists f, 0. split; [reflexivity|]. split; [apply copied_refl|]; lia. }
  assert (exists f1, align_dest c fuel f = Some f1 /\
                     copied safe f f1 (count f - count f1) /\
                     bytes_long c < count f1 /\
                     (distance_of c f1 <> 0 ->
                      distance_of c f1 = s f1 mod bytes_long c) /\
                     (distance_of c f1 = 0 <->
                      HAVE_EFFICIENT_UNALIGNED_ACCESS c = true \/
                      (s f - d f) mod bytes_long c = 0))
    as (f1 & Hal & Hcp1 & Hc1 & Hdist & Hiff).
  { unfold align_dest, distance_of.
    destruct (HAVE_EFFICIENT_UNALIGNED_ACCESS c) eqn:He; cbn [negb].
    - exists f. split; [reflexivity|]. rewrite Z.sub_diag.
      split; [apply copied_refl; lia|].
      split; [word_cases c; lia |].
      split; [congruence | tauto].
    - destruct (align_loop_copied fuel f Hv Hsafe) as (f1 & Hrun & Hcp & Had).
      + word_cases c; rewrite HW in *; zlia.
      + word_cases c; rewrite HW in *; zlia.
      + exists f1. split; [exact Hrun|].
        pose proof (cp_count Hcp) as Hc. pose proof (cp_s Hcp) as Hs.
        pose proof (cp_d Hcp) as Hd.
        split; [|split; [|split]].
        * replace (count f - count f1) with ((- d f) mod bytes_long c) by lia.
          exact Hcp.
        * word_cases c; rewrite HW in *; zlia.
        * intros _. apply land_mask.
        * rewrite land_mask. split.
          -- intros Hz. right. word_cases c; rewrite HW in *; zlia.
          -- intros [Ht | Hcong]; [discriminate|].
             word_cases c; rewrite HW in *; zlia. }
  rewrite Hal. cbn [bind].
  pose proof (copied_valid _ _ _ Hv Hcp1) as Hv1.
  pose proof Hv1 as Hv1'. unfold valid in Hv1'.
  assert (safe -> fwd_safe f1) as Hsafe1
      by (intros Hs; eapply copied_fwd_safe; eauto).
  assert (count f1 < Z.of_nat fuel) as Hfuel1
      by (pose proof (cp_k Hcp1); lia).
  destruct (Z.eqb_spec (distance_of c f1) 0) as [Hz | Hnz]; cbn [negb].
  - destruct (word_loop_copied fuel f1 Hv1 Hsafe1 Hfuel1)
      as (f' & Hrun & Hcp & Hrem).
    exists f'. eexists. split; [exact Hrun|].
    split; [eapply copied_trans; eauto|].
    intros _. exists f1. split; [reflexivity|].
    split; [|split; [contradiction | exact Hiff]].
    intros _. rewrite Hrem. word_cases c; rewrite HW in *; zlia.
  - specialize (Hdist Hnz).
    destruct (shifted_copy_copied fuel (distance_of c f1) f1)
      as (f' & n & Hrun & Hcp & Hn & Hex & Hlast); try assumption.
    + rewrite Hdist in *. word_cases c; rewrite HW in *; zlia.
    + rewrite Hdist. word_cases c; rewrite HW in *; zlia.
    + lia.
    + exists f'. eexists. split; [exact Hrun|].
      split; [eapply copied_trans; eauto|].
      intros _. exists f1. split; [reflexivity|].
      split; [contradiction | split; [intros _; exact Hex | exact Hiff]].
Qed.

(** *** The whole of [__memcpy] *)

Lemma memcpy_copied fuel m dest src n :
  valid c (entry m dest src n) -> (safe -> fwd_safe (entry m dest src n)) ->
  n < Z.of_nat fuel ->
  exists f', __memcpy c fuel m dest src n = Some (finish dest f') /\
             copied safe (entry m dest src n) f' n.
Proof.
  intros Hv Hsafe Hfuel.
  destruct (memcpy_words_copied fuel (entry m dest src n) Hv Hsafe Hfuel)
    as (f1 & k & Hrun1 & Hcp1 & _).
  pose proof (cp_k Hcp1) as Hk.
  pose proof (cp_count Hcp1) as Hc1. cbn [entry count] in Hk, Hc1.
  destruct (copy_remainder_copied fuel f1) as (f2 & Hrun2 & Hcp2).
  - eapply copied_valid; eauto.
  - intros Hs. eapply copied_fwd_safe; eauto.
  - lia.
  - exists f2. unfold __memcpy. rewrite Hrun1. cbn [bind].
    rewrite Hrun2. cbn [bind]. split; [reflexivity|].
    replace n with (k + count f1) at 2 by lia.
    eapply copied_trans; eauto.
Qed.

End Forward.

(* ===================================================================== *)
(** ** The byte and word loops against the reference copies *)

Lemma copy_remainder_bytewise c fuel :
  forall k f, valid c f -> count f = Z.of_nat k -> (k < fuel)%nat ->
  exists f', copy_remainder c fuel f = Some f' /\
             mem f' = bytewise_copy k (mem f) (d f) (s f) /\
             trace f' = trace f ++ bytewise_accesses k (d f) (s f).
Proof.
  induction fuel as [|fuel IH]; intros k f Hv Hc Hfuel; [lia|].
  cbn [copy_remainder]. destruct k as [|k].
  - rewrite Hc. cbn. eexists. split; [reflexivity|].
    cbn. now rewrite app_nil_r.
  - destruct (Z.eqb_spec (count f) 0) as [H0 | Hn0]; [lia|].
    assert (0 < count f) as Hpos by lia.
    pose proof (copy_u8_copied c True f Hv Hpos) as Hstep.
    change (dec_count c (copy_u8 c f)) with (copy_u8 c (dec_count c f)) in Hstep.
    destruct (IH k (copy_u8 c (dec_count c f))) as (f' & Hrun & Hm & Ht).
    + eapply copied_valid; eauto.
    + rewrite (cp_count Hstep). lia.
    + lia.
    + exists f'. split; [exact Hrun|].
      rewrite Hm, Ht, (cp_s Hstep), (cp_d Hstep).
      cbn [bytewise_copy bytewise_accesses mem trace copy_u8 dec_count s d].
      split; [reflexivity|]. now rewrite <- app_assoc.
Qed.

Lemma back_loop_backward c fuel :
  forall k f dest src,
  0 <= src -> 0 <= dest ->
  src + Z.of_nat k < modulus c -> dest + Z.of_nat k < modulus c ->
  s f = src + Z.of_nat k -> d f = dest + Z.of_nat k ->
  count f = Z.of_nat k -> (k < fuel)%nat ->
  exists f', back_loop c fuel f = Some f' /\
             mem f' = backward_copy k (mem f) dest src /\
             trace f' = trace f ++ backward_accesses k dest src.
Proof.
  induction fuel as [|fuel IH];
    intros k f dest src Hs0 Hd0 Hsm Hdm Hs Hd Hc Hfuel; [lia|].
  cbn [back_loop]. destruct k as [|k].
  - rewrite Hc. cbn. eexists. split; [reflexivity|].
    cbn. now rewrite app_nil_r.
  - destruct (Z.eqb_spec (count f) 0) as [H0 | Hn0]; [lia|].
    assert (wrap c (s f - 1) = src + Z.of_nat k) as Es
        by (rewrite wrap_small; lia).
    assert (wrap c (d f - 1) = dest + Z.of_nat k) as Ed
        by (rewrite wrap_small; lia).
    assert (wrap c (count f - 1) = Z.of_nat k) as Ec
        by (rewrite wrap_small; lia).
    destruct (IH k (copy_u8_back c (dec_count c f)) dest src)
      as (f' & Hrun & Hm & Ht); try assumption; try lia.
    exists f'. split; [exact Hrun|].
    rewrite Hm, Ht.
    cbn [backward_copy backward_accesses mem trace copy_u8_back dec_count s d].
    rewrite Es, Ed. split; [reflexivity|]. now rewrite <- app_assoc.
Qed.

Lemma word_loop_trace c fuel :
  forall f f', valid c f -> word_loop c fuel f = Some f' ->
  trace f' = trace f ++
             word_accesses c (Z.to_nat (count f / bytes_long c)) (d f) (s f).
Proof.
  induction fuel as [|fuel IH]; intros f f' Hv Hrun; [discriminate|].
  cbn [word_loop] in Hrun.
  assert (0 <= count f) as Hc0 by (unfold valid in Hv; lia).
  destruct (Z.geb_spec (count f) (bytes_long c)) as [Hge | Hlt].
  - pose proof (copy_ulong_copied c True f Hv Hge) as Hstep.
    rewrite (IH _ _ (copied_valid _ _ _ _ _ Hv Hstep) Hrun).
    rewrite (cp_s Hstep), (cp_d Hstep), (cp_count Hstep).
    replace (Z.to_nat (count f / bytes_long c))
      with (S (Z.to_nat ((count f - bytes_long c) / bytes_long c)))
      by (word_cases c; rewrite HW in *; zlia).
    cbn [word_accesses trace sub_count copy_ulong].
    now rewrite <- app_assoc.
  - injection Hrun as <-.
    replace (count f / bytes_long c) with 0
      by (word_cases c; rewrite HW in *; zlia).
    cbn. now rewrite app_nil_r.
Qed.

(** *** What the backward reference copy does *)

Lemma backward_copy_frame n :
  forall m dest src a,
  ~ (dest <= a < dest + Z.of_nat n) -> backward_copy n m dest src a = m a.
Proof.
  induction n as [|n IH]; intros m dest src a Ha; [reflexivity|].
  cbn [backward_copy]. rewrite IH by lia. apply store_u8_other. lia.
Qed.

Lemma backward_copy_data n :
  forall m dest src i,
  src <= dest -> 0 <= i < Z.of_nat n ->
  backward_copy n m dest src (dest + i) = m (src + i).
Proof.
  induction n as [|n IH]; intros m dest src i Hsd Hi; [lia|].
  cbn [backward_copy].
  destruct (Z.eq_dec i (Z.of_nat n)) as [-> | Hne].
  - rewrite backward_copy_frame by lia. apply store_u8_same.
  - rewrite IH by lia. apply store_u8_other. lia.
Qed.

Lemma backward_accesses_bounds n dest src :
  Forall (fun e => match e with
                   | Load a w => src <= a /\ a + w <= src + Z.of_nat n
                   | Store a w => dest <= a /\ a + w <= dest + Z.of_nat n
                   end)
         (backward_accesses n dest src).
Proof.
  induction n as [|n IH]; cbn [backward_accesses]; [constructor|].
  constructor; [lia|]. constructor; [lia|].
  eapply Forall_impl; [|exact IH]. intros [a w | a w]; lia.
Qed.

(* ===================================================================== *)
(** ** The three ways through [__memmove] *)

Lemma memmove_delegates c fuel m dest src n :
  region c src n -> dest < src \/ src + n <= dest ->
  __memmove c fuel m dest src n = __memcpy c fuel m dest src n.
Proof.
  intros (Hn & Hs & Hsm) Hcase. unfold __memmove.
  rewrite wrap_small by lia.
  destruct (Z.ltb_spec dest src); [reflexivity|].
  destruct (Z.leb_spec (src + n) dest); [reflexivity | lia].
Qed.

Lemma memmove_backward c fuel m dest src n :
  region c src n -> region c dest n -> src < dest < src + n ->
  n < Z.of_nat fuel ->
  __memmove c fuel m dest src n =
  Some {| ret := dest;
          mem_after := backward_copy (Z.to_nat n) m dest src;
          accesses := backward_accesses (Z.to_nat n) dest src |}.
Proof.
  intros (Hn & Hs & Hsm) (_ & Hd & Hdm) Hcase Hfuel. unfold __memmove.
  rewrite !wrap_small by lia.
  destruct (Z.ltb_spec dest src); [lia|].
  destruct (Z.leb_spec (src + n) dest); [lia|]. cbn [orb].
  destruct (Z.gtb_spec dest src); [|lia].
  set (f := {| s := src + n; d := dest + n; count := n; mem := m; trace := [] |}).
  destruct (back_loop_backward c fuel (Z.to_nat n) f dest src)
    as (f' & Hrun & Hm & Ht); cbn [f s d count]; try lia.
  rewrite Hrun. cbn [bind]. unfold finish. now rewrite Hm, Ht.
Qed.

Lemma memmove_in_place c fuel m dest n :
  region c dest n -> 0 < n ->
  __memmove c fuel m dest dest n =
  Some {| ret := dest; mem_after := m; accesses := [] |}.
Proof.
  intros (Hn & Hs & Hsm) Hpos. unfold __memmove.
  rewrite wrap_small by lia.
  destruct (Z.ltb_spec dest dest); [lia|].
  destruct (Z.leb_spec (dest + n) dest); [lia|]. cbn [orb].
  destruct (Z.gtb_spec dest dest); [lia | reflexivity].
Qed.

(* ===================================================================== *)
(** ** Effects of a whole call *)

Lemma region_valid c m dest src n :
  region c dest n -> region c src n -> valid c (entry m dest src n).
Proof. unfold region, valid. cbn. lia. Qed.

Lemma read_all_write_all_in m dest src n i :
  0 <= i < n -> read_all_write_all m dest src n (dest + i) = m (src + i).
Proof.
  intros Hi. unfold read_all_write_all.
  rewrite store_bytes_in by (rewrite load_bytes_length; lia).
  rewrite load_bytes_nth by lia. f_equal. lia.
Qed.

Lemma read_all_write_all_out m dest src n a :
  ~ (dest <= a < dest + n) -> read_all_write_all m dest src n a = m a.
Proof.
  intros Ha. unfold read_all_write_all.
  apply store_bytes_out. rewrite load_bytes_length. lia.
Qed.

(** [__memcpy] on valid regions returns [dest], leaves everything outside
    [dest[0..n)] alone, keeps its accesses in bounds, and, when an ascending
    copy is harmless, fills [dest[0..n)] with the original source bytes. *)
Lemma memcpy_effects c fuel m dest src n :
  region c dest n -> region c src n -> n < Z.of_nat fuel ->
  exists r,
    __memcpy c fuel m dest src n = Some r /\
    ret r = dest /\
    (forall a, ~ (dest <= a < dest + n) -> mem_after r a = m a) /\
    (dest <= src \/ src + n <= dest ->
     forall i, 0 <= i < n -> mem_after r (dest + i) = m (src + i)) /\
    Forall (store_in_dest dest n) (accesses r) /\
    Forall (load_below_end src n) (accesses r).
Proof.
  intros Hd Hs Hfuel.
  pose proof (region_valid c m dest src n Hd Hs) as Hv.
  destruct (memcpy_copied c (fwd_safe (entry m dest src n)) fuel m dest src n)
    as (f' & Hrun & Hcp); auto.
  exists (finish dest f'). split; [exact Hrun|]. split; [reflexivity|].
  destruct Hcp as [_ _ _ _ Hframe Hdata (evs & Htr & Hev)].
  cbn [entry s d count mem trace finish mem_after accesses] in *.
  rewrite Htr. cbn [app].
  repeat split.
  - exact Hframe.
  - exact Hdata.
  - eapply Forall_impl; [|exact Hev]. intros [a w | a w]; cbn; tauto.
  - eapply Forall_impl; [|exact Hev]. intros [a w | a w]; cbn; tauto.
Qed.

(** [__memmove] on valid regions, whatever their overlap. *)
Lemma memmove_effects c fuel m dest src n :
  region c dest n -> region c src n -> n < Z.of_nat fuel ->
  exists r,
    __memmove c fuel m dest src n = Some r /\
    ret r = dest /\
    (forall a, ~ (dest <= a < dest + n) -> mem_after r a = m a) /\
    (forall i, 0 <= i < n -> mem_after r (dest + i) = m (src + i)) /\
    Forall (store_in_dest dest n) (accesses r).
Proof.
  intros Hd Hs Hfuel.
  pose proof Hd as (Hn & _ & _).
  assert (dest < src \/ src + n <= dest \/ src < dest < src + n \/
          (dest = src /\ 0 < n)) as [Hlt | [Hpast | [Hov | [-> Hpos]]]] by lia.
  1, 2: rewrite memmove_delegates by (auto; lia);
        destruct (memcpy_effects c fuel m dest src n Hd Hs Hfuel)
          as (r & Hrun & Hret & Hframe & Hdata & Hst & _);
        exists r; repeat split; auto; apply Hdata; lia.
  - rewrite memmove_backward by assumption.
    eexists. split; [reflexivity|]. cbn [ret mem_after accesses].
    split; [reflexivity|]. split; [|split].
    + intros a Ha. apply backward_copy_frame. lia.
    + intros i Hi. apply backward_copy_data; lia.
    + eapply Forall_impl; [|apply backward_accesses_bounds].
      intros [a w | a w]; cbn; [tauto | lia].
  - rewrite memmove_in_place by assumption.
    eexists. split; [reflexivity|]. cbn [ret mem_after accesses].
    repeat split; auto.
Qed.

(** Under little-endian encoding, merging two adjacent words gives the
    word that starts [distance] bytes into the first. *)
Lemma merge_adjacent_words c m a distance :
  0 < distance < bytes_long c ->
  merge c distance (load_ulong c m a) (load_ulong c m (a + bytes_long c)) =
  load_ulong c m (a + distance).
Proof.
  intros Hd. pose proof (word_len_eq c) as Hlen.
  unfold load_ulong.
  rewrite merge_bytes by (auto using load_bytes_length).
  f_equal. apply nth_ext with (d := Byte.x00) (d' := Byte.x00).
  - rewrite length_app, length_skipn, length_firstn, !load_bytes_length. lia.
  - intros i Hi.
    rewrite length_app, length_skipn, length_firstn, !load_bytes_length in Hi.
    rewrite (load_bytes_nth m (a + distance)) by lia.
    destruct (Nat.lt_ge_cases i (word_len c - Z.to_nat distance)) as [Hlo | Hhi].
    + rewrite app_nth1 by (rewrite length_skipn, load_bytes_length; lia).
      rewrite nth_skipn, load_bytes_nth by lia. f_equal. lia.
    + rewrite app_nth2 by (rewrite length_skipn, load_bytes_length; lia).
      rewrite length_skipn, load_bytes_length, nth_firstn.
      destruct (Nat.ltb_spec (i - (word_len c - Z.to_nat distance))
                             (Z.to_nat distance)); [|lia].
      rewrite load_bytes_nth by lia. f_equal. lia.
Qed.

(* ===================================================================== *)
(** ** Properties of [__memcpy] and [__memmove] *)

Ltac concrete_region := unfold region, modulus; cbn; lia.

(** C1. For every count, every pair of non-overlapping regions and every
    alignment of source and destination, [__memcpy] returns and afterwards
    [dest[0..count)] holds exactly the bytes originally at
    [src[0..count)]. *)
Theorem memcpy_copies_disjoint c fuel m dest src n :
  region c dest n -> region c src n ->
  dest + n <= src \/ src + n <= dest ->
  n < Z.of_nat fuel ->
  exists r,
    __memcpy c fuel m dest src n = Some r /\
    ret r = dest /\
    forall i, 0 <= i < n -> mem_after r (dest + i) = m (src + i).
Proof.
  intros Hd Hs Hdisj Hfuel.
  destruct (memcpy_effects c fuel m dest src n Hd Hs Hfuel)
    as (r & Hrun & Hret & _ & Hdata & _).
  exists r. repeat split; auto.
  apply Hdata. destruct Hd as (Hn & _). lia.
Qed.

Lemma memcpy_copies_disjoint_witness :
  exists r,
    __memcpy rv64 20 pattern 4096 8195 19 = Some r /\
    ret r = 4096 /\
    forall i, 0 <= i < 19 -> mem_after r (4096 + i) = pattern (8195 + i).
Proof.
  apply (memcpy_copies_disjoint rv64 20 pattern 4096 8195 19);
    [concrete_region | concrete_region | lia | lia].
Defined.

(** C2. For every count and every overlap of the two regions, [__memmove]
    returns and leaves memory as if the whole source had been read before
    any destination byte was written: [dest[0..count)] holds the bytes
    originally at [src[0..count)]. *)
Theorem memmove_moves c fuel m dest src n :
  region c dest n -> region c src n -> n < Z.of_nat fuel ->
  exists r,
    __memmove c fuel m dest src n = Some r /\
    ret r = dest /\
    (forall i, 0 <= i < n -> mem_after r (dest + i) = m (src + i)) /\
    (forall a, mem_after r a = read_all_write_all m dest src n a).
Proof.
  intros Hd Hs Hfuel.
  destruct (memmove_effects c fuel m dest src n Hd Hs Hfuel)
    as (r & Hrun & Hret & Hframe & Hdata & _).
  exists r. repeat split; auto.
  intros a.
  destruct (Z_le_dec dest a) as [Hle | Hgt];
    [destruct (Z_lt_dec a (dest + n)) as [Hlt | Hge] |].
  - replace a with (dest + (a - dest)) by lia.
    rewrite read_all_write_all_in, Hdata by lia. reflexivity.
  - rewrite read_all_write_all_out, Hframe by lia. reflexivity.
  - rewrite read_all_write_all_out, Hframe by lia. reflexivity.
Qed.

Lemma memmove_moves_witness :
  exists r,
    __memmove rv64 21 pattern 8195 8192 20 = Some r /\
    ret r = 8195 /\
    (forall i, 0 <= i < 20 -> mem_after r (8195 + i) = pattern (8192 + i)) /\
    (forall a, mem_after r a = read_all_write_all pattern 8195 8192 20 a).
Proof.
  apply (memmove_moves rv64 21 pattern 8195 8192 20);
    [concrete_region | concrete_region | lia].
Defined.

(** C9. No load of [__memcpy] ends past the end of the source region: every
    access that reads [w] bytes at [a], the look-ahead word of the shifted
    loop included, has [a + w <= src + count]. *)
Theorem memcpy_loads_below_source_end c fuel m dest src n :
  region c dest n -> region c src n -> n < Z.of_nat fuel ->
  exists r,
    __memcpy c fuel m dest src n = Some r /\
    forall a w, In (Load a w) (accesses r) -> a + w <= src + n.
Proof.
  intros Hd Hs Hfuel.
  destruct (memcpy_effects c fuel m dest src n Hd Hs Hfuel)
    as (r & Hrun & _ & _ & _ & _ & Hld).
  exists r. split; [exact Hrun|].
  intros a w Hin. rewrite Forall_forall in Hld.
  exact (Hld _ Hin).
Qed.

Lemma memcpy_loads_below_source_end_witness :
  exists r,
    __memcpy rv64 20 pattern 4096 8195 19 = Some r /\
    forall a w, In (Load a w) (accesses r) -> a + w <= 8195 + 19.
Proof.
  apply (memcpy_loads_below_source_end rv64 20 pattern 4096 8195 19);
    [concrete_region | concrete_region | lia].
Defined.

(** C10. [__memcpy] and [__memmove] store only inside [dest[0..count)], and
    every byte outside that range holds its original value afterwards. *)
Theorem writes_stay_in_destination c fuel m dest src n :
  region c dest n -> region c src n -> n < Z.of_nat fuel ->
  (exists r,
     __memcpy c fuel m dest src n = Some r /\
     (forall a w, In (Store a w) (accesses r) ->
                  dest <= a /\ a + w <= dest + n) /\
     (forall a, ~ (dest <= a < dest + n) -> mem_after r a = m a)) /\
  (exists r,
     __memmove c fuel m dest src n = Some r /\
     (forall a w, In (Store a w) (accesses r) ->
                  dest <= a /\ a + w <= dest + n) /\
     (forall a, ~ (dest <= a < dest + n) -> mem_after r a = m a)).
Proof.
  intros Hd Hs Hfuel. split.
  - destruct (memcpy_effects c fuel m dest src n Hd Hs Hfuel)
      as (r & Hrun & _ & Hframe & _ & Hst & _).
    rewrite Forall_forall in Hst.
    exists r. split; [exact Hrun|]. split; [|exact Hframe].
    intros a w Hin. exact (Hst _ Hin).
  - destruct (memmove_effects c fuel m dest src n Hd Hs Hfuel)
      as (r & Hrun & _ & Hframe & _ & Hst).
    rewrite Forall_forall in Hst.
    exists r. split; [exact Hrun|]. split; [|exact Hframe].
    intros a w Hin. exact (Hst _ Hin).
Qed.

Lemma writes_stay_in_destination_witness :
  (exists r,
     __memcpy rv64 21 pattern 8195 8192 20 = Some r /\
     (forall a w, In (Store a w) (accesses r) ->
                  8195 <= a /\ a + w <= 8195 + 20) /\
     (forall a, ~ (8195 <= a < 8195 + 20) -> mem_after r a = pattern a)) /\
  (exists r,
     __memmove rv64 21 pattern 8195 8192 20 = Some r /\
     (forall a w, In (Store a w) (accesses r) ->
                  8195 <= a /\ a + w <= 8195 + 20) /\
     (forall a, ~ (8195 <= a < 8195 + 20) -> mem_after r a = pattern a)).
Proof.
  apply (writes_stay_in_destination rv64 21 pattern 8195 8192 20);
    [concrete_region | concrete_region | lia].
Defined.

(** A backward copy of a region onto itself leaves memory as it was. *)
Lemma backward_copy_in_place n m p a : backward_copy n m p p a = m a.
Proof.
  destruct (Z_le_dec p a) as [Hle | Hgt];
    [destruct (Z_lt_dec a (p + Z.of_nat n)) as [Hlt | Hge] |].
  - replace a with (p + (a - p)) at 1 by lia.
    rewrite backward_copy_data by lia. f_equal. lia.
  - apply backward_copy_frame. lia.
  - apply backward_copy_frame. lia.
Qed.

(** C3. [__memmove] is [__memcpy] whenever [dest < src] or
    [src + count <= dest]; when [dest > src] and the regions overlap it is
    the byte-by-byte copy from the last byte of each region back to the
    first, access for access.  In every case other than the delegation it
    returns [dest] and leaves the memory of that backward copy; for
    [dest == src] it does so without touching memory, the loop being
    skipped by [if (dest > src)]. *)
Theorem memmove_three_ways c fuel m dest src n :
  region c dest n -> region c src n -> n < Z.of_nat fuel ->
  (dest < src \/ src + n <= dest ->
   __memmove c fuel m dest src n = __memcpy c fuel m dest src n) /\
  (src < dest < src + n ->
   __memmove c fuel m dest src n =
   Some {| ret := dest;
           mem_after := backward_copy (Z.to_nat n) m dest src;
           accesses := backward_accesses (Z.to_nat n) dest src |}) /\
  (~ (dest < src \/ src + n <= dest) ->
   exists r,
     __memmove c fuel m dest src n = Some r /\
     ret r = dest /\
     forall a, mem_after r a = backward_copy (Z.to_nat n) m dest src a) /\
  (dest = src /\ 0 < n ->
   __memmove c fuel m dest src n =
   Some {| ret := dest; mem_after := m; accesses := [] |}).
Proof.
  intros Hd Hs Hfuel. split; [|split; [|split]].
  - intros Hcase. now apply memmove_delegates.
  - intros Hcase. now apply memmove_backward.
  - intros Hcase.
    assert (src < dest < src + n \/ (dest = src /\ 0 < n))
      as [Hov | [-> Hpos]] by lia.
    + rewrite memmove_backward by assumption.
      eexists. split; [reflexivity|]. split; reflexivity.
    + rewrite memmove_in_place by assumption.
      eexists. split; [reflexivity|]. split; [reflexivity|].
      intros a. cbn [mem_after]. symmetry. apply backward_copy_in_place.
  - intros [-> Hpos]. now apply memmove_in_place.
Qed.

Lemma memmove_three_ways_witness :
  (8195 < 8192 \/ 8192 + 20 <= 8195 ->
   __memmove rv64 21 pattern 8195 8192 20 =
   __memcpy rv64 21 pattern 8195 8192 20) /\
  (8192 < 8195 < 8192 + 20 ->
   __memmove rv64 21 pattern 8195 8192 20 =
   Some {| ret := 8195;
           mem_after := backward_copy (Z.to_nat 20) pattern 8195 8192;
           accesses := backward_accesses (Z.to_nat 20) 8195 8192 |}) /\
  (~ (8195 < 8192 \/ 8192 + 20 <= 8195) ->
   exists r,
     __memmove rv64 21 pattern 8195 8192 20 = Some r /\
     ret r = 8195 /\
     forall a, mem_after r a = backward_copy (Z.to_nat 20) pattern 8195 8192 a) /\
  (8195 = 8192 /\ 0 < 20 ->
   __memmove rv64 21 pattern 8195 8192 20 =
   Some {| ret := 8195; mem_after := pattern; accesses := [] |}).
Proof.
  apply (memmove_three_ways rv64 21 pattern 8195 8192 20);
    [concrete_region | concrete_region | lia].
Defined.

(** C4. Entered with a nonzero [distance = s & mask], the shifted word copy
    first makes [s - distance] word-aligned, runs while
    [count >= bytes_long + mask] taking [bytes_long] off [count] each turn,
    and hands back [s] with [distance] restored.  Every word it writes is
    [last >> (distance * 8) | next << ((bytes_long - distance) * 8)] of the
    two adjacent source words, and under the little-endian encoding the
    bytes written are exactly the source bytes. *)
Theorem shifted_copy_writes_source_words c fuel f distance :
  valid c f -> fwd_safe f ->
  distance = Z.land (s f) (mask c) -> distance <> 0 ->
  count f < Z.of_nat fuel ->
  exists f' n,
    shifted_copy c fuel distance f = Some f' /\
    Z.land (s f - distance) (mask c) = 0 /\
    0 <= n /\
    count f' = count f - n * bytes_long c /\
    count f' < bytes_long c + mask c /\
    (0 < n -> bytes_long c + mask c <= count f' + bytes_long c) /\
    s f' = s f + n * bytes_long c /\
    d f' = d f + n * bytes_long c /\
    (forall j, 0 <= j < n ->
       load_ulong c (mem f') (d f + j * bytes_long c) =
       merge c distance
         (load_ulong c (mem f) (s f - distance + j * bytes_long c))
         (load_ulong c (mem f) (s f - distance + (j + 1) * bytes_long c))) /\
    (forall i, 0 <= i < n * bytes_long c ->
       mem f' (d f + i) = mem f (s f + i)).
Proof.
  intros Hv Hsafe Hdist Hnz Hfuel.
  rewrite land_mask in Hdist.
  pose proof Hv as (Hc0 & Hs0 & Hd0 & Hsm & Hdm).
  assert (0 < distance < bytes_long c /\ distance <= s f) as [Hd Hds]
      by (word_cases c; rewrite HW in *; zlia).
  assert (Z.land (s f - distance) (mask c) = 0) as Haligned
      by (rewrite land_mask; word_cases c; rewrite HW in *; zlia).
  destruct (Z_le_gt_dec (bytes_long c) (count f)) as [Hcnt | Hsmall]; cycle 1.
  { (* fewer than bytes_long bytes left: the loop does not run *)
    destruct fuel as [|fuel]; [lia|].
    unfold shifted_copy. cbn [shift_loop count].
    destruct (Z.geb_spec (count f) (bytes_long c + mask c)) as [Hge | Hlt];
      [rewrite mask_eq in Hge; lia|].
    cbn [bind]. eexists; exists 0. split; [reflexivity|].
    cbn [s d count mem]. rewrite (wrap_small c (s f - distance)) by lia.
    rewrite wrap_small by lia.
    repeat split; try assumption; try lia; intros; lia. }
  destruct (shifted_copy_copied c True fuel distance f)
    as (f' & n & Hrun & Hcp & Hn & Hex & Hlast); auto.
  exists f', n.
  pose proof (cp_data Hcp I) as Hdata.
  repeat split; try assumption.
  - apply (cp_count Hcp).
  - apply (cp_s Hcp).
  - apply (cp_d Hcp).
  - intros j Hj.
    replace (s f - distance + (j + 1) * bytes_long c)
      with (s f - distance + j * bytes_long c + bytes_long c) by lia.
    rewrite merge_adjacent_words by assumption.
    unfold load_ulong. f_equal. apply load_bytes_ext.
    intros i Hi. rewrite word_len_eq in Hi.
    replace (d f + j * bytes_long c + i) with (d f + (j * bytes_long c + i))
      by lia.
    rewrite Hdata by nia. f_equal. lia.
Qed.

Lemma shifted_copy_writes_source_words_witness :
  exists f' n,
    shifted_copy rv64 20 3 (entry pattern 4096 8195 19) = Some f' /\
    Z.land (s (entry pattern 4096 8195 19) - 3) (mask rv64) = 0 /\
    0 <= n /\
    count f' = count (entry pattern 4096 8195 19) - n * bytes_long rv64 /\
    count f' < bytes_long rv64 + mask rv64 /\
    (0 < n -> bytes_long rv64 + mask rv64 <= count f' + bytes_long rv64) /\
    s f' = s (entry pattern 4096 8195 19) + n * bytes_long rv64 /\
    d f' = d (entry pattern 4096 8195 19) + n * bytes_long rv64 /\
    (forall j, 0 <= j < n ->
       load_ulong rv64 (mem f')
         (d (entry pattern 4096 8195 19) + j * bytes_long rv64) =
       merge rv64 3
         (load_ulong rv64 (mem (entry pattern 4096 8195 19))
            (s (entry pattern 4096 8195 19) - 3 + j * bytes_long rv64))
         (load_ulong rv64 (mem (entry pattern 4096 8195 19))
            (s (entry pattern 4096 8195 19) - 3 + (j + 1) * bytes_long rv64))) /\
    (forall i, 0 <= i < n * bytes_long rv64 ->
       mem f' (d (entry pattern 4096 8195 19) + i) =
       mem (entry pattern 4096 8195 19) (s (entry pattern 4096 8195 19) + i)).
Proof.
  apply (shifted_copy_writes_source_words rv64 20
           (entry pattern 4096 8195 19) 3).
  - unfold valid, modulus; cbn; lia.
  - unfold fwd_safe; cbn; lia.
  - reflexivity.
  - lia.
  - cbn; lia.
Defined.

(** C5 (as the code has it). When [__memcpy] starts at or above
    [MIN_THRESHOLD], the count left on reaching [copy_remainder] is below
    [bytes_long] if the direct word loop ran ([distance == 0]) and below
    [bytes_long + mask] if the shifted loop ran ([distance != 0]). *)
Theorem remainder_count_bound c fuel m dest src n :
  region c dest n -> region c src n ->
  MIN_THRESHOLD c <= n -> n < Z.of_nat fuel ->
  exists f1 f',
    align_dest c fuel (entry m dest src n) = Some f1 /\
    memcpy_words c fuel (entry m dest src n) = Some f' /\
    0 <= count f' /\
    (distance_of c f1 = 0 -> count f' < bytes_long c) /\
    (distance_of c f1 <> 0 -> count f' < bytes_long c + mask c).
Proof.
  intros Hd Hs Hbig Hfuel.
  pose proof (region_valid c m dest src n Hd Hs) as Hv.
  destruct (memcpy_words_copied c False fuel (entry m dest src n))
    as (f' & k & Hrun & Hcp & Hrest); [exact Hv | tauto | exact Hfuel |].
  destruct (Hrest Hbig) as (f1 & Hal & Hz & Hnz & _).
  exists f1, f'. repeat split; auto.
  pose proof (copied_valid _ _ _ _ _ Hv Hcp) as Hv'.
  unfold valid in Hv'. lia.
Qed.

Lemma remainder_count_bound_witness :
  exists f1 f',
    align_dest rv64 20 (entry pattern 4096 8195 19) = Some f1 /\
    memcpy_words rv64 20 (entry pattern 4096 8195 19) = Some f' /\
    0 <= count f' /\
    (distance_of rv64 f1 = 0 -> count f' < bytes_long rv64) /\
    (distance_of rv64 f1 <> 0 -> count f' < bytes_long rv64 + mask rv64).
Proof.
  apply (remainder_count_bound rv64 20 pattern 4096 8195 19);
    [concrete_region | concrete_region | cbn; lia | lia].
Defined.

(** C5 as stated fails on the shifted path: 19 bytes from a source at
    alignment 3 to an aligned destination reach [copy_remainder] with 11
    bytes left, which is not below [bytes_long = 8]. *)
Lemma remainder_count_can_exceed_word :
  ~ (MIN_THRESHOLD rv64 <= 19 ->
     forall f', memcpy_words rv64 20 (entry pattern 4096 8195 19) = Some f' ->
                count f' < bytes_long rv64).
Proof.
  intros H.
  assert (option_map count (memcpy_words rv64 20 (entry pattern 4096 8195 19))
          = Some 11) as E by (vm_compute; reflexivity).
  destruct (memcpy_words rv64 20 (entry pattern 4096 8195 19)) as [f'|];
    [|discriminate E].
  assert (MIN_THRESHOLD rv64 <= 19) as Hbig by (cbn; lia).
  specialize (H Hbig f' eq_refl).
  cbn in E. injection E as E. rewrite E in H. cbn in H. lia.
Qed.

(** C6. Below [MIN_THRESHOLD] (two machine words) [__memcpy] does no
    alignment fixup and moves no word: the frame reaches [copy_remainder]
    untouched and the call is the byte-by-byte ascending copy of [count]
    bytes, access for access. *)
Theorem small_copy_is_bytewise c fuel m dest src n :
  region c dest n -> region c src n ->
  n < MIN_THRESHOLD c -> n < Z.of_nat fuel ->
  memcpy_words c fuel (entry m dest src n) = Some (entry m dest src n) /\
  __memcpy c fuel m dest src n =
  Some {| ret := dest;
          mem_after := bytewise_copy (Z.to_nat n) m dest src;
          accesses := bytewise_accesses (Z.to_nat n) dest src |}.
Proof.
  intros Hd Hs Hsmall Hfuel.
  pose proof (region_valid c m dest src n Hd Hs) as Hv.
  assert (memcpy_words c fuel (entry m dest src n) = Some (entry m dest src n))
    as Hw.
  { unfold memcpy_words. cbn [entry count].
    destruct (Z.ltb_spec n (MIN_THRESHOLD c)); [reflexivity | lia]. }
  split; [exact Hw|].
  unfold __memcpy. rewrite Hw. cbn [bind].
  destruct (copy_remainder_bytewise c fuel (Z.to_nat n) (entry m dest src n))
    as (f' & Hrun & Hm & Ht); auto.
  - destruct Hd as (Hn & _). cbn. lia.
  - destruct Hd as (Hn & _). lia.
  - rewrite Hrun. cbn [bind]. unfold finish. rewrite Hm, Ht. reflexivity.
Qed.

Lemma small_copy_is_bytewise_witness :
  memcpy_words rv64 16 (entry pattern 4097 8195 15)
  = Some (entry pattern 4097 8195 15) /\
  __memcpy rv64 16 pattern 4097 8195 15 =
  Some {| ret := 4097;
          mem_after := bytewise_copy (Z.to_nat 15) pattern 4097 8195;
          accesses := bytewise_accesses (Z.to_nat 15) 4097 8195 |}.
Proof.
  apply (small_copy_is_bytewise rv64 16 pattern 4097 8195 15);
    [concrete_region | concrete_region | cbn; lia | lia].
Defined.

(** C7 (as the code has it). With CONFIG_HAVE_EFFICIENT_UNALIGNED_ACCESS,
    for every input the alignment fixup does nothing, [distance] is 0 and
    the shifted block is not entered.  From [MIN_THRESHOLD] bytes upwards
    the full words are copied by [count / bytes_long] direct load-store
    pairs (the loop runs while [count >= bytes_long]) and hold the source
    bytes afterwards; below [MIN_THRESHOLD] line 37 sends every byte,
    those of a full word included, through the byte loop. *)
Theorem efficient_unaligned_copies_words_directly c fuel m dest src n :
  HAVE_EFFICIENT_UNALIGNED_ACCESS c = true ->
  region c dest n -> region c src n -> n < Z.of_nat fuel ->
  align_dest c fuel (entry m dest src n) = Some (entry m dest src n) /\
  distance_of c (entry m dest src n) = 0 /\
  memcpy_words c fuel (entry m dest src n) =
  (if n <? MIN_THRESHOLD c then Some (entry m dest src n)
   else word_loop c fuel (entry m dest src n)) /\
  (MIN_THRESHOLD c <= n ->
   exists f1 r,
     word_loop c fuel (entry m dest src n) = Some f1 /\
     count f1 = n mod bytes_long c /\
     __memcpy c fuel m dest src n = Some r /\
     accesses r =
     word_accesses c (Z.to_nat (n / bytes_long c)) dest src ++
     bytewise_accesses (Z.to_nat (n mod bytes_long c))
       (dest + bytes_long c * (n / bytes_long c))
       (src + bytes_long c * (n / bytes_long c)) /\
     (dest <= src \/ src + n <= dest ->
      (forall i, 0 <= i < bytes_long c * (n / bytes_long c) ->
                 mem f1 (dest + i) = m (src + i)) /\
      (forall i, 0 <= i < n -> mem_after r (dest + i) = m (src + i)))) /\
  (n < MIN_THRESHOLD c ->
   exists r,
     __memcpy c fuel m dest src n = Some r /\
     accesses r = bytewise_accesses (Z.to_nat n) dest src).
Proof.
  intros He Hd Hs Hfuel.
  pose proof (region_valid c m dest src n Hd Hs) as Hv.
  pose proof Hd as (Hn & _).
  assert (align_dest c fuel (entry m dest src n) = Some (entry m dest src n))
    as Hal by (unfold align_dest; now rewrite He).
  assert (distance_of c (entry m dest src n) = 0)
    as Hdist by (unfold distance_of; now rewrite He).
  assert (memcpy_words c fuel (entry m dest src n) =
          (if n <? MIN_THRESHOLD c then Some (entry m dest src n)
           else word_loop c fuel (entry m dest src n))) as Hw.
  { unfold memcpy_words. cbn [entry count].
    destruct (n <? MIN_THRESHOLD c); [reflexivity|].
    fold (entry m dest src n). rewrite Hal. cbn [bind]. now rewrite Hdist. }
  split; [exact Hal|]. split; [exact Hdist|]. split; [exact Hw|]. split.
  - intros Hbig.
    destruct (Z.ltb_spec n (MIN_THRESHOLD c)) as [Hlt | _]; [lia|].
    destruct (word_loop_copied c (dest <= src \/ src + n <= dest) fuel
                (entry m dest src n))
      as (f1 & Hrun & Hcp & Hrem); [exact Hv | auto | exact Hfuel |].
    pose proof (word_loop_trace c fuel _ _ Hv Hrun) as Htr.
    pose proof (copied_valid _ _ _ _ _ Hv Hcp) as Hv1.
    cbn [entry s d count trace] in Hrem, Htr.
    assert (0 <= count f1) as Hc1 by (unfold valid in Hv1; lia).
    destruct (copy_remainder_bytewise c fuel (Z.to_nat (count f1)) f1)
      as (f2 & Hrun2 & Hm2 & Ht2); auto; try lia.
    { pose proof (cp_k Hcp). pose proof (cp_count Hcp).
      cbn [entry count] in *. lia. }
    destruct (memcpy_effects c fuel m dest src n Hd Hs Hfuel)
      as (r & Hrunr & _ & _ & Hdata & _).
    assert (__memcpy c fuel m dest src n = Some (finish dest f2)) as Hall
        by (unfold __memcpy; rewrite Hw, Hrun; cbn [bind]; now rewrite Hrun2).
    rewrite Hall in Hrunr. injection Hrunr as <-.
    exists f1, (finish dest f2).
    split; [exact Hrun|]. split; [exact Hrem|]. split; [exact Hall|]. split.
    + cbn [finish accesses]. rewrite Ht2, Htr, (cp_s Hcp), (cp_d Hcp), Hrem.
      reflexivity.
    + intros Hsafe. split; [|exact (Hdata Hsafe)].
      exact (cp_data Hcp Hsafe).
  - intros Hsmall.
    destruct (Z.ltb_spec n (MIN_THRESHOLD c)) as [_ | Hge]; [|lia].
    destruct (copy_remainder_bytewise c fuel (Z.to_nat n) (entry m dest src n))
      as (f' & Hrun & _ & Ht); [exact Hv | cbn; lia | lia |].
    exists (finish dest f'). split.
    + unfold __memcpy. rewrite Hw. cbn [bind]. now rewrite Hrun.
    + cbn [finish accesses]. now rewrite Ht.
Qed.

Lemma efficient_unaligned_copies_words_directly_witness :
  align_dest rv64_unaligned_ok 20 (entry pattern 4097 8195 19)
  = Some (entry pattern 4097 8195 19) /\
  distance_of rv64_unaligned_ok (entry pattern 4097 8195 19) = 0 /\
  memcpy_words rv64_unaligned_ok 20 (entry pattern 4097 8195 19) =
  (if 19 <? MIN_THRESHOLD rv64_unaligned_ok
   then Some (entry pattern 4097 8195 19)
   else word_loop rv64_unaligned_ok 20 (entry pattern 4097 8195 19)) /\
  (MIN_THRESHOLD rv64_unaligned_ok <= 19 ->
   exists f1 r,
     word_loop rv64_unaligned_ok 20 (entry pattern 4097 8195 19) = Some f1 /\
     count f1 = 19 mod bytes_long rv64_unaligned_ok /\
     __memcpy rv64_unaligned_ok 20 pattern 4097 8195 19 = Some r /\
     accesses r =
     word_accesses rv64_unaligned_ok
       (Z.to_nat (19 / bytes_long rv64_unaligned_ok)) 4097 8195 ++
     bytewise_accesses (Z.to_nat (19 mod bytes_long rv64_unaligned_ok))
       (4097 + bytes_long rv64_unaligned_ok
               * (19 / bytes_long rv64_unaligned_ok))
       (8195 + bytes_long rv64_unaligned_ok
               * (19 / bytes_long rv64_unaligned_ok)) /\
     (4097 <= 8195 \/ 8195 + 19 <= 4097 ->
      (forall i, 0 <= i < bytes_long rv64_unaligned_ok
                            * (19 / bytes_long rv64_unaligned_ok) ->
                 mem f1 (4097 + i) = pattern (8195 + i)) /\
      (forall i, 0 <= i < 19 -> mem_after r (4097 + i) = pattern (8195 + i)))) /\
  (19 < MIN_THRESHOLD rv64_unaligned_ok ->
   exists r,
     __memcpy rv64_unaligned_ok 20 pattern 4097 8195 19 = Some r /\
     accesses r = bytewise_accesses (Z.to_nat 19) 4097 8195).
Proof.
  apply (efficient_unaligned_copies_words_directly rv64_unaligned_ok 20
           pattern 4097 8195 19);
    [reflexivity | concrete_region | concrete_region | lia].
Defined.

(** C7 as stated fails below [MIN_THRESHOLD]: 12 bytes on RV64 hold one
    full word, yet the call is twelve byte pairs and no word is loaded or
    stored. *)
Lemma efficient_unaligned_small_copy_uses_no_words :
  ~ (exists r,
       __memcpy rv64_unaligned_ok 13 pattern 4096 8192 12 = Some r /\
       accesses r =
       word_accesses rv64_unaligned_ok
         (Z.to_nat (12 / bytes_long rv64_unaligned_ok)) 4096 8192 ++
       bytewise_accesses (Z.to_nat (12 mod bytes_long rv64_unaligned_ok))
         (4096 + bytes_long rv64_unaligned_ok
                 * (12 / bytes_long rv64_unaligned_ok))
         (8192 + bytes_long rv64_unaligned_ok
                 * (12 / bytes_long rv64_unaligned_ok))).
Proof.
  intros (r & Hrun & Hacc).
  assert (option_map (fun r => hd (Store 0 0) (accesses r))
                     (__memcpy rv64_unaligned_ok 13 pattern 4096 8192 12)
          = Some (Load 8192 1)) as E by (vm_compute; reflexivity).
  rewrite Hrun in E. cbn [option_map] in E. rewrite Hacc in E.
  vm_compute in E. discriminate E.
Qed.

(** C8. With [count == 0], [__memcpy] and [__memmove] access no memory,
    leave it as it was and return [dest], whatever the two pointers are. *)
Theorem zero_count_is_a_no_op c fuel m dest src :
  __memcpy c (S fuel) m dest src 0 =
  Some {| ret := dest; mem_after := m; accesses := [] |} /\
  __memmove c (S fuel) m dest src 0 =
  Some {| ret := dest; mem_after := m; accesses := [] |}.
Proof.
  assert (__memcpy c (S fuel) m dest src 0 =
          Some {| ret := dest; mem_after := m; accesses := [] |}) as Hcpy
      by (destruct c as [[|] e]; reflexivity).
  split; [exact Hcpy|].
  unfold __memmove, memcpy.
  destruct ((dest <? src) || (wrap c (src + 0) <=? dest)); [exact Hcpy|].
  destruct (dest >? src); reflexivity.
Qed.

(* ===================================================================== *)
(** ** Concrete runs *)

(** 19 bytes 0x01..0x13 from a source at alignment 3 to an aligned
    destination on RV64 without efficient unaligned access: the shifted
    word loop runs once and the byte loop copies the last 11 bytes. *)
Example run_shifted_rv64 :
  dump 4096 19 (__memcpy rv64 20 counting 4096 8195 19) =
  Some [1; 2; 3; 4; 5; 6; 7; 8; 9; 10; 11; 12; 13; 14; 15; 16; 17; 18; 19].
Proof. vm_compute. reflexivity. Qed.

Example run_shifted_rv64_accesses :
  option_map (fun r => firstn 5 (accesses r))
             (__memcpy rv64 20 counting 4096 8195 19) =
  Some [Load 8192 8; Load 8200 8; Store 4096 8; Load 8203 1; Store 4104 1].
Proof. vm_compute. reflexivity. Qed.

(** The same bytes on RV32 with a misaligned destination: three bytes of
    alignment fixup, three shifted words, four remainder bytes. *)
Example run_shifted_rv32 :
  dump 4097 19 (__memcpy rv32 20 counting 4097 8195 19) =
  Some [1; 2; 3; 4; 5; 6; 7; 8; 9; 10; 11; 12; 13; 14; 15; 16; 17; 18; 19].
Proof. vm_compute. reflexivity. Qed.

Example run_shifted_rv32_accesses :
  option_map (fun r => firstn 11 (accesses r))
             (__memcpy rv32 20 counting 4097 8195 19) =
  Some [Load 8195 1; Store 4097 1; Load 8196 1; Store 4098 1;
        Load 8197 1; Store 4099 1;
        Load 8196 4; Load 8200 4; Store 4100 4; Load 8204 4; Store 4104 4].
Proof. vm_compute. reflexivity. Qed.

(** [move(buf + 3, buf, 20)] inside one buffer: the first 20 bytes end up
    three positions further on, by the backward byte loop. *)
Example run_overlapping_move :
  dump 8195 23 (__memmove rv64 21 counting 8198 8195 20) =
  Some [1; 2; 3; 1; 2; 3; 4; 5; 6; 7; 8; 9; 10; 11; 12; 13; 14; 15; 16; 17;
        18; 19; 20].
Proof. vm_compute. reflexivity. Qed.

Example run_overlapping_move_accesses :
  option_map (fun r => firstn 4 (accesses r))
             (__memmove rv64 21 counting 8198 8195 20) =
  Some [Load 8214 1; Store 8217 1; Load 8213 1; Store 8216 1].
Proof. vm_compute. reflexivity. Qed.

(** Moving downwards with overlap goes through [__memcpy]. *)
Example run_overlapping_move_down :
  dump 8195 20 (__memmove rv64 21 counting 8195 8198 20) =
  Some [4; 5; 6; 7; 8; 9; 10; 11; 12; 13; 14; 15; 16; 17; 18; 19; 20; 21;
        22; 23].
Proof. vm_compute. reflexivity. Qed.

(** Too little fuel gives no result rather than a wrong one. *)
Example run_out_of_fuel : __memcpy rv64 3 counting 4096 8195 19 = None.
Proof. vm_compute. reflexivity. Qed.

(* ===================================================================== *)
(** ** The access sequence in closed form *)

Lemma align_loop_trace c fuel :
  forall f f', valid c f ->
  (- d f) mod bytes_long c <= count f ->
  align_loop c fuel f = Some f' ->
  trace f' = trace f ++
             bytewise_accesses (Z.to_nat ((- d f) mod bytes_long c)) (d f) (s f).
Proof.
  induction fuel as [|fuel IH]; intros f f' Hv Hcnt Hrun; [discriminate|].
  cbn [align_loop] in Hrun. rewrite land_mask in Hrun.
  destruct (Z.eqb_spec (d f mod bytes_long c) 0) as [H0 | Hn0].
  - injection Hrun as <-.
    replace ((- d f) mod bytes_long c) with 0
      by (word_cases c; rewrite HW in *; zlia).
    cbn. now rewrite app_nil_r.
  - assert (0 < count f) as Hpos
        by (unfold valid in Hv; word_cases c; rewrite HW in *; zlia).
    pose proof (copy_u8_copied c False f Hv Hpos) as Hstep.
    pose proof (cp_d Hstep) as Ed. pose proof (cp_s Hstep) as Es.
    pose proof (cp_count Hstep) as Ec.
    assert ((- d (dec_count c (copy_u8 c f))) mod bytes_long c =
            (- d f) mod bytes_long c - 1) as Hr
        by (rewrite Ed; word_cases c; rewrite HW in *; zlia).
    rewrite (IH _ f' (copied_valid _ _ _ _ _ Hv Hstep)); [| lia | exact Hrun].
    rewrite Hr, Ed, Es.
    replace (Z.to_nat ((- d f) mod bytes_long c))
      with (S (Z.to_nat ((- d f) mod bytes_long c - 1)))
      by (word_cases c; rewrite HW in *; zlia).
    cbn [bytewise_accesses trace dec_count copy_u8].
    now rewrite <- app_assoc.
Qed.

Lemma shift_loop_trace c distance fuel :
  forall next g g',
  0 < distance < bytes_long c -> 0 <= s g ->
  valid c (unshift distance g) ->
  shift_loop c distance fuel next g = Some g' ->
  trace g' = trace g ++
             shifted_accesses c (Z.to_nat (shifted_turns c (count g)))
               (d g) (s g).
Proof.
  induction fuel as [|fuel IH]; intros next g g' Hd Hs Hv Hrun; [discriminate|].
  cbn [shift_loop] in Hrun.
  assert (0 <= count g) as Hc0 by (unfold valid in Hv; cbn in Hv; lia).
  destruct (Z.geb_spec (count g) (bytes_long c + mask c)) as [Hge | Hlt].
  - assert (copied False (unshift distance g)
              (unshift distance (sub_count c (snd (shift_body c distance next g))))
              (bytes_long c)) as Hstep
        by (apply shift_body_copied; auto; tauto).
    unfold shift_body in Hrun, Hstep. cbn [snd] in Hstep.
    match type of Hrun with
    | shift_loop _ _ _ ?nx ?gx = _ =>
        set (g2 := gx) in *; set (next' := nx) in *
    end.
    pose proof (cp_s Hstep) as Es. pose proof (cp_d Hstep) as Ed.
    pose proof (cp_count Hstep) as Ec.
    cbn [unshift s d count] in Es, Ed, Ec.
    assert (s g2 = s g + bytes_long c) as Es' by lia.
    assert (0 < bytes_long c) as HW0 by (word_cases c; lia).
    rewrite (IH next' g2 g'); auto; [| lia | eapply copied_valid; eauto].
    rewrite Ed, Ec, Es'.
    replace (Z.to_nat (shifted_turns c (count g)))
      with (S (Z.to_nat (shifted_turns c (count g - bytes_long c))))
      by (unfold shifted_turns; rewrite mask_eq in *;
          word_cases c; rewrite HW in *; zlia).
    cbn [shifted_accesses].
    replace (trace g2)
      with (trace g ++ [Load (s g + bytes_long c) (bytes_long c);
                        Store (d g) (bytes_long c)])
      by (rewrite <- Es'; reflexivity).
    now rewrite <- app_assoc.
  - injection Hrun as <-.
    replace (Z.to_nat (shifted_turns c (count g))) with 0%nat
      by (unfold shifted_turns; rewrite mask_eq in *;
          word_cases c; rewrite HW in *; zlia).
    cbn. now rewrite app_nil_r.
Qed.

Lemma shifted_copy_exact c fuel distance f :
  valid c f -> 0 < distance < bytes_long c -> distance <= s f ->
  bytes_long c <= count f -> count f < Z.of_nat fuel ->
  exists f',
    shifted_copy c fuel distance f = Some f' /\
    valid c f' /\
    s f' = s f + shifted_turns c (count f) * bytes_long c /\
    d f' = d f + shifted_turns c (count f) * bytes_long c /\
    count f' = count f - shifted_turns c (count f) * bytes_long c /\
    trace f' = trace f ++
               Load (s f - distance) (bytes_long c)
               :: shifted_accesses c (Z.to_nat (shifted_turns c (count f)))
                    (d f) (s f - distance).
Proof.
  intros Hv Hd Hs Hc Hfuel.
  destruct (shifted_copy_copied c False fuel distance f)
    as (f' & n & Hrun & Hcp & Hn & Hex & Hlast); auto; [tauto|].
  pose proof (cp_count Hcp) as Ec.
  assert (n = shifted_turns c (count f)) as En
      by (unfold shifted_turns; rewrite mask_eq in *;
          word_cases c; rewrite HW in *; zlia).
  exists f'. split; [exact Hrun|].
  split; [eapply copied_valid; eauto|].
  rewrite <- En.
  split; [apply (cp_s Hcp)|]. split; [apply (cp_d Hcp)|]. split; [exact Ec|].
  pose proof Hv as (Hc0 & Hs0 & Hd0 & Hsm & Hdm).
  unfold shifted_copy in Hrun.
  rewrite (wrap_small c (s f - distance)) in Hrun by lia.
  match type of Hrun with
  | bind (shift_loop _ _ _ ?nx ?g0) _ = _ =>
      destruct (shift_loop c distance fuel nx g0) as [g'|] eqn:Hloop;
        [|discriminate Hrun]
  end.
  cbn [bind] in Hrun. injection Hrun as <-. cbn [trace].
  apply shift_loop_trace in Hloop; auto.
  - rewrite Hloop. cbn [trace s d count]. rewrite En.
    rewrite <- app_assoc. reflexivity.
  - cbn [s]. lia.
  - unfold valid, unshift. cbn [s d count]. lia.
Qed.

(** From line 48 to the end. *)
Lemma word_phase_exact c fuel f1 :
  valid c f1 -> bytes_long c <= count f1 -> count f1 < Z.of_nat fuel ->
  exists f2 f3,
    (if negb (distance_of c f1 =? 0)
     then shifted_copy c fuel (distance_of c f1) f1
     else word_loop c fuel f1) = Some f2 /\
    copy_remainder c fuel f2 = Some f3 /\
    trace f3 = trace f1 ++ word_phase_accesses c (d f1) (s f1) (count f1).
Proof.
  intros Hv Hc Hfuel.
  pose proof Hv as (Hc0 & Hs0 & Hd0 & Hsm & Hdm).
  unfold word_phase_accesses, distance_of.
  destruct (HAVE_EFFICIENT_UNALIGNED_ACCESS c) eqn:He; cbn [negb orb].
  2: rewrite land_mask;
     destruct (Z.eqb_spec (s f1 mod bytes_long c) 0) as [Hz | Hnz]; cbn [negb].
  1, 2: destruct (word_loop_copied c False fuel f1)
          as (f2 & Hrun & Hcp & Hrem); [exact Hv | tauto | exact Hfuel |];
        pose proof (word_loop_trace c fuel _ _ Hv Hrun) as Htr;
        pose proof (copied_valid _ _ _ _ _ Hv Hcp) as Hv2;
        pose proof Hv2 as (Hc2 & _);
        pose proof (cp_k Hcp) as Hk; pose proof (cp_count Hcp) as Ec;
        destruct (copy_remainder_bytewise c fuel (Z.to_nat (count f2)) f2)
          as (f3 & Hrun3 & _ & Ht3); [exact Hv2 | lia | lia |];
        exists f2, f3; split; [exact Hrun|]; split; [exact Hrun3|];
        rewrite Ht3, Htr, (cp_s Hcp), (cp_d Hcp), Hrem;
        now rewrite <- app_assoc.
  destruct (shifted_copy_exact c fuel (s f1 mod bytes_long c) f1)
    as (f2 & Hrun & Hv2 & Es & Ed & Ec & Htr); auto.
  { word_cases c; rewrite HW in *; zlia. }
  { word_cases c; rewrite HW in *; zlia. }
  pose proof Hv2 as (Hc2 & _).
  assert (0 <= shifted_turns c (count f1) * bytes_long c) as Hk.
  { unfold shifted_turns. rewrite mask_eq.
    word_cases c; rewrite HW in *; zlia. }
  destruct (copy_remainder_bytewise c fuel (Z.to_nat (count f2)) f2)
    as (f3 & Hrun3 & _ & Ht3); [exact Hv2 | lia | lia |].
  exists f2, f3. split; [exact Hrun|]. split; [exact Hrun3|].
  rewrite Ht3, Htr, Es, Ed, Ec. rewrite <- app_assoc. reflexivity.
Qed.

(** The accesses of [__memcpy] are [memcpy_accesses]. *)
Lemma memcpy_accesses_exact c fuel m dest src n :
  region c dest n -> region c src n -> n < Z.of_nat fuel ->
  exists r, __memcpy c fuel m dest src n = Some r /\
            accesses r = memcpy_accesses c dest src n.
Proof.
  intros Hd Hs Hfuel.
  pose proof (region_valid c m dest src n Hd Hs) as Hv.
  pose proof Hd as (Hn & _).
  unfold __memcpy, memcpy_words, memcpy_accesses. cbn [entry count].
  fold (entry m dest src n).
  destruct (Z.ltb_spec n (MIN_THRESHOLD c)) as [Hsmall | Hbig]; cbn [bind].
  - destruct (copy_remainder_bytewise c fuel (Z.to_nat n) (entry m dest src n))
      as (f' & Hrun & _ & Ht); [exact Hv | cbn; lia | lia |].
    rewrite Hrun. cbn [bind]. eexists. split; [reflexivity|].
    cbn [finish accesses]. now rewrite Ht.
  - assert (exists f1, align_dest c fuel (entry m dest src n) = Some f1 /\
                       valid c f1 /\
                       s f1 = src + fixup_bytes c dest /\
                       d f1 = dest + fixup_bytes c dest /\
                       count f1 = n - fixup_bytes c dest /\
                       bytes_long c <= count f1 /\
                       count f1 <= n /\
                       trace f1 = bytewise_accesses
                                    (Z.to_nat (fixup_bytes c dest)) dest src)
      as (f1 & Hal & Hv1 & Es & Ed & Ec & Hc1 & Hle & Ht1).
    { unfold align_dest, fixup_bytes.
      destruct (HAVE_EFFICIENT_UNALIGNED_ACCESS c); cbn [negb].
      - exists (entry m dest src n). cbn [entry s d count trace].
        rewrite !Z.add_0_r, Z.sub_0_r.
        split; [reflexivity|]. split; [exact Hv|].
        repeat split; try lia. word_cases c; lia.
      - assert ((- dest) mod bytes_long c <= n /\
                (- dest) mod bytes_long c < Z.of_nat fuel /\
                0 <= (- dest) mod bytes_long c /\
                bytes_long c <= n - (- dest) mod bytes_long c)
          as (Hk1 & Hk2 & Hk3 & Hk4)
            by (word_cases c; rewrite HW in *; zlia).
        destruct (align_loop_copied c False fuel (entry m dest src n))
          as (f1 & Hrun & Hcp & _); [exact Hv | tauto | exact Hk1 | exact Hk2 |].
        pose proof (align_loop_trace c fuel _ _ Hv Hk1 Hrun) as Htr.
        pose proof (cp_s Hcp) as Es. pose proof (cp_d Hcp) as Ed.
        pose proof (cp_count Hcp) as Ec.
        cbn [entry s d count trace] in *.
        exists f1. split; [exact Hrun|].
        split; [eapply copied_valid; eauto|].
        rewrite Htr, app_nil_l. repeat split; auto; lia. }
    rewrite Hal. cbn [bind].
    destruct (word_phase_exact c fuel f1) as (f2 & f3 & Hrun2 & Hrun3 & Ht3);
      [exact Hv1 | exact Hc1 | lia |].
    rewrite Hrun2. cbn [bind]. rewrite Hrun3. cbn [bind].
    eexists. split; [reflexivity|].
    cbn [finish accesses]. now rewrite Ht3, Ht1, Es, Ed, Ec.
Qed.

(** *** Properties shared by every access of a reference sequence *)

Lemma bytewise_accesses_forall (P : access -> Prop) n :
  forall d s,
  (forall i, 0 <= i < Z.of_nat n ->
             P (Load (s + i) 1) /\ P (Store (d + i) 1)) ->
  Forall P (bytewise_accesses n d s).
Proof.
  induction n as [|n IH]; intros d s H; cbn [bytewise_accesses];
    [constructor|].
  destruct (H 0) as [Hl Hs]; [lia|]. rewrite !Z.add_0_r in *.
  constructor; [exact Hl|]. constructor; [exact Hs|].
  apply IH. intros i Hi. destruct (H (1 + i)) as [Hl' Hs']; [lia|].
  now rewrite !Z.add_assoc in *.
Qed.

Lemma word_accesses_forall c (P : access -> Prop) n :
  forall d s,
  (forall j, 0 <= j < Z.of_nat n ->
             P (Load (s + j * bytes_long c) (bytes_long c)) /\
             P (Store (d + j * bytes_long c) (bytes_long c))) ->
  Forall P (word_accesses c n d s).
Proof.
  induction n as [|n IH]; intros d s H; cbn [word_accesses]; [constructor|].
  destruct (H 0) as [Hl Hs]; [lia|]. rewrite !Z.mul_0_l, !Z.add_0_r in *.
  constructor; [exact Hl|]. constructor; [exact Hs|].
  apply IH. intros j Hj. destruct (H (1 + j)) as [Hl' Hs']; [lia|].
  replace (s + bytes_long c + j * bytes_long c)
    with (s + (1 + j) * bytes_long c) by lia.
  replace (d + bytes_long c + j * bytes_long c)
    with (d + (1 + j) * bytes_long c) by lia.
  now split.
Qed.

Lemma shifted_accesses_forall c (P : access -> Prop) n :
  forall d s,
  (forall j, 0 <= j < Z.of_nat n ->
             P (Load (s + (j + 1) * bytes_long c) (bytes_long c)) /\
             P (Store (d + j * bytes_long c) (bytes_long c))) ->
  Forall P (shifted_accesses c n d s).
Proof.
  induction n as [|n IH]; intros d s H; cbn [shifted_accesses]; [constructor|].
  destruct (H 0) as [Hl Hs]; [lia|].
  rewrite !Z.mul_0_l, !Z.add_0_r, ?Z.add_0_l, ?Z.mul_1_l in *.
  constructor; [exact Hl|]. constructor; [exact Hs|].
  apply IH. intros j Hj. destruct (H (1 + j)) as [Hl' Hs']; [lia|].
  replace (s + bytes_long c + (j + 1) * bytes_long c)
    with (s + (1 + j + 1) * bytes_long c) by lia.
  replace (d + bytes_long c + j * bytes_long c)
    with (d + (1 + j) * bytes_long c) by lia.
  now split.
Qed.

Lemma memcpy_accesses_aligned c dest src n :
  HAVE_EFFICIENT_UNALIGNED_ACCESS c = false ->
  Forall (word_aligned c) (memcpy_accesses c dest src n).
Proof.
  intros He.
  assert (forall k d s, Forall (word_aligned c) (bytewise_accesses k d s))
    as Hbytes.
  { intros k d s. apply bytewise_accesses_forall.
    intros i _. cbn. word_cases c; lia. }
  unfold memcpy_accesses.
  destruct (n <? MIN_THRESHOLD c); [apply Hbytes|].
  apply Forall_app. split; [apply Hbytes|].
  unfold word_phase_accesses, fixup_bytes. rewrite He. cbn [orb].
  destruct (Z.eqb_spec ((src + (- dest) mod bytes_long c) mod bytes_long c) 0)
    as [Hz | Hnz].
  - apply Forall_app. split; [|apply Hbytes].
    apply word_accesses_forall. intros j Hj. cbn.
    split; intros _; word_cases c; rewrite HW in *; zlia.
  - constructor.
    + cbn. intros _. word_cases c; rewrite HW in *; zlia.
    + apply Forall_app. split; [|apply Hbytes].
      apply shifted_accesses_forall. intros j Hj. cbn.
      split; intros _; word_cases c; rewrite HW in *; zlia.
Qed.

Lemma memcpy_accesses_not_below c dest src n :
  Forall (load_not_below (src - src mod bytes_long c))
         (memcpy_accesses c dest src n).
Proof.
  assert (forall k d s, src <= s ->
            Forall (load_not_below (src - src mod bytes_long c))
                   (bytewise_accesses k d s)) as Hbytes.
  { intros k d s Hs. apply bytewise_accesses_forall.
    intros i Hi. cbn. split; [|exact I].
    word_cases c; rewrite HW in *; zlia. }
  assert (0 <= fixup_bytes c dest < bytes_long c) as Hk
      by (unfold fixup_bytes; destruct (HAVE_EFFICIENT_UNALIGNED_ACCESS c);
          word_cases c; rewrite HW in *; zlia).
  unfold memcpy_accesses.
  destruct (Z.ltb_spec n (MIN_THRESHOLD c)) as [Hsmall | Hbig];
    [apply Hbytes; lia|].
  rewrite MIN_THRESHOLD_eq in Hbig.
  apply Forall_app. split; [apply Hbytes; lia|].
  set (k := fixup_bytes c dest) in *. clearbody k.
  unfold word_phase_accesses.
  destruct (HAVE_EFFICIENT_UNALIGNED_ACCESS c
            || ((src + k) mod bytes_long c =? 0)).
  - apply Forall_app. split.
    + apply word_accesses_forall. intros j Hj. cbn. split; [|exact I].
      word_cases c; rewrite HW in *; zlia.
    + apply Hbytes.
      assert (0 <= bytes_long c * ((n - k) / bytes_long c)); [|lia].
      word_cases c; rewrite HW in *; zlia.
  - constructor.
    + cbn. word_cases c; rewrite HW in *; zlia.
    + apply Forall_app. split.
      * apply shifted_accesses_forall. intros j Hj. cbn. split; [|exact I].
        word_cases c; rewrite HW in *; zlia.
      * apply Hbytes.
        assert (0 <= shifted_turns c (n - k) * bytes_long c); [|lia].
        unfold shifted_turns. rewrite mask_eq.
        word_cases c; rewrite HW in *; zlia.
Qed.

(** *** What the ascending reference copy does *)

Lemma bytewise_copy_frame n :
  forall m dest src a,
  ~ (dest <= a < dest + Z.of_nat n) -> bytewise_copy n m dest src a = m a.
Proof.
  induction n as [|n IH]; intros m dest src a Ha; [reflexivity|].
  cbn [bytewise_copy]. rewrite IH by lia. apply store_u8_other. lia.
Qed.

Lemma bytewise_copy_data n :
  forall m dest src i,
  dest <= src \/ src + Z.of_nat n <= dest ->
  0 <= i < Z.of_nat n ->
  bytewise_copy n m dest src (dest + i) = m (src + i).
Proof.
  induction n as [|n IH]; intros m dest src i Hsafe Hi; [lia|].
  cbn [bytewise_copy].
  destruct (Z.eq_dec i 0) as [-> | Hne].
  - rewrite bytewise_copy_frame by lia.
    rewrite !Z.add_0_r. apply store_u8_same.
  - replace (dest + i) with (dest + 1 + (i - 1)) by lia.
    rewrite IH by lia.
    replace (src + 1 + (i - 1)) with (src + i) by lia.
    apply store_u8_other. lia.
Qed.

(* ===================================================================== *)
(** ** Further properties of [__memcpy] *)

(** X1. [__memcpy] also copies correctly between overlapping regions as
    long as the destination does not start above the source: this is the
    case [__memmove] hands over when [dest < src]. *)
Theorem memcpy_copies_downwards_overlap c fuel m dest src n :
  region c dest n -> region c src n -> dest <= src ->
  n < Z.of_nat fuel ->
  exists r,
    __memcpy c fuel m dest src n = Some r /\
    ret r = dest /\
    forall i, 0 <= i < n -> mem_after r (dest + i) = m (src + i).
Proof.
  intros Hd Hs Hle Hfuel.
  destruct (memcpy_effects c fuel m dest src n Hd Hs Hfuel)
    as (r & Hrun & Hret & _ & Hdata & _).
  exists r. repeat split; auto.
Qed.

Lemma memcpy_copies_downwards_overlap_witness :
  exists r,
    __memcpy rv64 40 pattern 8192 8195 37 = Some r /\
    ret r = 8192 /\
    forall i, 0 <= i < 37 -> mem_after r (8192 + i) = pattern (8195 + i).
Proof.
  apply (memcpy_copies_downwards_overlap rv64 40 pattern 8192 8195 37);
    [concrete_region | concrete_region | lia | lia].
Defined.

(** X2. [__memcpy] of a region onto itself leaves every byte of memory as
    it was. *)
Theorem memcpy_onto_itself_changes_nothing c fuel m p n :
  region c p n -> n < Z.of_nat fuel ->
  exists r,
    __memcpy c fuel m p p n = Some r /\
    forall a, mem_after r a = m a.
Proof.
  intros Hp Hfuel.
  destruct (memcpy_effects c fuel m p p n Hp Hp Hfuel)
    as (r & Hrun & _ & Hframe & Hdata & _).
  exists r. split; [exact Hrun|]. intros a.
  destruct (Z_le_dec p a) as [Hle | Hgt];
    [destruct (Z_lt_dec a (p + n)) as [Hlt | Hge] |].
  - replace a with (p + (a - p)) by lia. apply Hdata; lia.
  - apply Hframe. lia.
  - apply Hframe. lia.
Qed.

Lemma memcpy_onto_itself_changes_nothing_witness :
  exists r,
    __memcpy rv64 40 pattern 8195 8195 37 = Some r /\
    forall a, mem_after r a = pattern a.
Proof.
  apply (memcpy_onto_itself_changes_nothing rv64 40 pattern 8195 37);
    [concrete_region | lia].
Defined.

(** X3. The loads and stores of [__memcpy], in program order, are
    [memcpy_accesses]: below [MIN_THRESHOLD] byte pairs only; otherwise the
    byte pairs that align the destination, then either the direct word pairs
    or one word load followed by a look-ahead load and a store per word,
    then the byte pairs of the remainder. *)
Theorem memcpy_access_sequence c fuel m dest src n :
  region c dest n -> region c src n -> n < Z.of_nat fuel ->
  exists r,
    __memcpy c fuel m dest src n = Some r /\
    accesses r = memcpy_accesses c dest src n.
Proof.
  intros Hd Hs Hfuel. now apply memcpy_accesses_exact.
Qed.

Lemma memcpy_access_sequence_witness :
  exists r,
    __memcpy rv32 20 pattern 4097 8195 19 = Some r /\
    accesses r = memcpy_accesses rv32 4097 8195 19.
Proof.
  apply (memcpy_access_sequence rv32 20 pattern 4097 8195 19);
    [concrete_region | concrete_region | lia].
Defined.

(** X4. Without efficient unaligned access, every word-sized load and
    store of [__memcpy] is at a word-aligned address, whatever the
    alignment of [dest] and [src]. *)
Theorem memcpy_word_accesses_are_aligned c fuel m dest src n :
  HAVE_EFFICIENT_UNALIGNED_ACCESS c = false ->
  region c dest n -> region c src n -> n < Z.of_nat fuel ->
  exists r,
    __memcpy c fuel m dest src n = Some r /\
    forall a,
      In (Load a (bytes_long c)) (accesses r) \/
      In (Store a (bytes_long c)) (accesses r) ->
      a mod bytes_long c = 0.
Proof.
  intros He Hd Hs Hfuel.
  destruct (memcpy_accesses_exact c fuel m dest src n Hd Hs Hfuel)
    as (r & Hrun & Hacc).
  exists r. split; [exact Hrun|]. rewrite Hacc.
  pose proof (memcpy_accesses_aligned c dest src n He) as Hall.
  rewrite Forall_forall in Hall.
  intros a [Hin | Hin]; apply Hall in Hin; cbn in Hin; auto.
Qed.

Lemma memcpy_word_accesses_are_aligned_witness :
  exists r,
    __memcpy rv64 40 pattern 4099 8197 37 = Some r /\
    forall a,
      In (Load a (bytes_long rv64)) (accesses r) \/
      In (Store a (bytes_long rv64)) (accesses r) ->
      a mod bytes_long rv64 = 0.
Proof.
  apply (memcpy_word_accesses_are_aligned rv64 40 pattern 4099 8197 37);
    [reflexivity | concrete_region | concrete_region | lia].
Defined.

(** X5. Every load of [__memcpy] lies between the source pointer rounded
    down to a word boundary and the end of the source region: the shifted
    loop reads below [src], but never out of the word that holds its first
    byte. *)
Theorem memcpy_loads_stay_in_source_words c fuel m dest src n :
  region c dest n -> region c src n -> n < Z.of_nat fuel ->
  exists r,
    __memcpy c fuel m dest src n = Some r /\
    forall a w, In (Load a w) (accesses r) ->
                src - src mod bytes_long c <= a /\ a + w <= src + n.
Proof.
  intros Hd Hs Hfuel.
  destruct (memcpy_accesses_exact c fuel m dest src n Hd Hs Hfuel)
    as (r & Hrun & Hacc).
  destruct (memcpy_effects c fuel m dest src n Hd Hs Hfuel)
    as (r' & Hrun' & _ & _ & _ & _ & Hup).
  rewrite Hrun in Hrun'. injection Hrun' as <-.
  exists r. split; [exact Hrun|].
  pose proof (memcpy_accesses_not_below c dest src n) as Hlow.
  rewrite <- Hacc in Hlow. rewrite Forall_forall in Hlow, Hup.
  intros a w Hin. split.
  - apply (Hlow _ Hin).
  - apply (Hup _ Hin).
Qed.

Lemma memcpy_loads_stay_in_source_words_witness :
  exists r,
    __memcpy rv64 40 pattern 4099 8197 37 = Some r /\
    forall a w, In (Load a w) (accesses r) ->
                8197 - 8197 mod bytes_long rv64 <= a /\ a + w <= 8197 + 37.
Proof.
  apply (memcpy_loads_stay_in_source_words rv64 40 pattern 4099 8197 37);
    [concrete_region | concrete_region | lia].
Defined.

(** X6. Which addresses [__memcpy] touches, and in which order, does not
    depend on the bytes in memory. *)
Theorem memcpy_accesses_ignore_contents c fuel m m' dest src n :
  region c dest n -> region c src n -> n < Z.of_nat fuel ->
  exists r r',
    __memcpy c fuel m dest src n = Some r /\
    __memcpy c fuel m' dest src n = Some r' /\
    accesses r = accesses r'.
Proof.
  intros Hd Hs Hfuel.
  destruct (memcpy_accesses_exact c fuel m dest src n Hd Hs Hfuel)
    as (r & Hrun & Hacc).
  destruct (memcpy_accesses_exact c fuel m' dest src n Hd Hs Hfuel)
    as (r' & Hrun' & Hacc').
  exists r, r'. repeat split; auto. congruence.
Qed.

Lemma memcpy_accesses_ignore_contents_witness :
  exists r r',
    __memcpy rv64 40 pattern 4099 8197 37 = Some r /\
    __memcpy rv64 40 counting 4099 8197 37 = Some r' /\
    accesses r = accesses r'.
Proof.
  apply (memcpy_accesses_ignore_contents rv64 40 pattern counting 4099 8197 37);
    [concrete_region | concrete_region | lia].
Defined.

(** X7. With both pointers word-aligned and at least [MIN_THRESHOLD] bytes,
    [__memcpy] without efficient unaligned access does no fixup and no
    shifting: [count / bytes_long] direct word pairs, then the
    [count mod bytes_long] remainder bytes. *)
Theorem aligned_copy_is_word_pairs c fuel m dest src n :
  HAVE_EFFICIENT_UNALIGNED_ACCESS c = false ->
  region c dest n -> region c src n ->
  dest mod bytes_long c = 0 -> src mod bytes_long c = 0 ->
  MIN_THRESHOLD c <= n -> n < Z.of_nat fuel ->
  exists r,
    __memcpy c fuel m dest src n = Some r /\
    accesses r =
    word_accesses c (Z.to_nat (n / bytes_long c)) dest src ++
    bytewise_accesses (Z.to_nat (n mod bytes_long c))
      (dest + bytes_long c * (n / bytes_long c))
      (src + bytes_long c * (n / bytes_long c)).
Proof.
  intros He Hd Hs Had Has Hbig Hfuel.
  destruct (memcpy_accesses_exact c fuel m dest src n Hd Hs Hfuel)
    as (r & Hrun & Hacc).
  exists r. split; [exact Hrun|]. rewrite Hacc.
  unfold memcpy_accesses, word_phase_accesses, fixup_bytes.
  destruct (Z.ltb_spec n (MIN_THRESHOLD c)); [lia|].
  rewrite He. cbn [orb].
  replace ((- dest) mod bytes_long c) with 0
    by (word_cases c; rewrite HW in *; zlia).
  rewrite !Z.add_0_r, Z.sub_0_r, Has. cbn. reflexivity.
Qed.

Lemma aligned_copy_is_word_pairs_witness :
  exists r,
    __memcpy rv64 40 pattern 4096 8192 37 = Some r /\
    accesses r =
    word_accesses rv64 (Z.to_nat (37 / bytes_long rv64)) 4096 8192 ++
    bytewise_accesses (Z.to_nat (37 mod bytes_long rv64))
      (4096 + bytes_long rv64 * (37 / bytes_long rv64))
      (8192 + bytes_long rv64 * (37 / bytes_long rv64)).
Proof.
  apply (aligned_copy_is_word_pairs rv64 40 pattern 4096 8192 37);
    [reflexivity | concrete_region | concrete_region
     | reflexivity | reflexivity | cbn; lia | lia].
Defined.

(** X8. Whenever line 48 finds [distance] nonzero, both shift counts of
    line 68-69 are strictly between 0 and [BITS_PER_LONG]: the merge never
    shifts a word by its full width. *)
Theorem shift_counts_in_range c f :
  distance_of c f <> 0 ->
  0 < distance_of c f * 8 < BITS_PER_LONG c /\
  0 < (bytes_long c - distance_of c f) * 8 < BITS_PER_LONG c.
Proof.
  intros Hnz. rewrite bits_eq. unfold distance_of in *.
  destruct (HAVE_EFFICIENT_UNALIGNED_ACCESS c); cbn [negb] in *; [lia|].
  rewrite land_mask in *.
  word_cases c; rewrite HW in *; zlia.
Qed.

Lemma shift_counts_in_range_witness :
  0 < distance_of rv64 (entry pattern 4096 8195 19) * 8 < BITS_PER_LONG rv64 /\
  0 < (bytes_long rv64 - distance_of rv64 (entry pattern 4096 8195 19)) * 8
    < BITS_PER_LONG rv64.
Proof.
  apply (shift_counts_in_range rv64 (entry pattern 4096 8195 19)).
  cbn. lia.
Defined.

(** X9. On reaching [copy_remainder] the three locals are in step: for
    some [k] with [0 <= k <= count], [s = src + k], [d = dest + k] and [k]
    bytes are gone from [count]; nothing outside [dest[0..k)] has changed,
    and, when an ascending copy is harmless, [dest[0..k)] already holds the
    first [k] source bytes. *)
Theorem words_phase_copies_a_prefix c fuel m dest src n :
  region c dest n -> region c src n -> n < Z.of_nat fuel ->
  exists f' k,
    memcpy_words c fuel (entry m dest src n) = Some f' /\
    0 <= k <= n /\
    s f' = src + k /\ d f' = dest + k /\ count f' = n - k /\
    (forall a, ~ (dest <= a < dest + k) -> mem f' a = m a) /\
    (dest <= src \/ src + n <= dest ->
     forall i, 0 <= i < k -> mem f' (dest + i) = m (src + i)).
Proof.
  intros Hd Hs Hfuel.
  pose proof (region_valid c m dest src n Hd Hs) as Hv.
  destruct (memcpy_words_copied c (fwd_safe (entry m dest src n)) fuel
              (entry m dest src n))
    as (f' & k & Hrun & Hcp & _); auto.
  exists f', k. split; [exact Hrun|].
  destruct Hcp as [Hk Es Ed Ec Hframe Hdata _].
  cbn [entry s d count mem] in *. repeat split; auto; lia.
Qed.

Lemma words_phase_copies_a_prefix_witness :
  exists f' k,
    memcpy_words rv64 40 (entry pattern 4099 8197 37) = Some f' /\
    0 <= k <= 37 /\
    s f' = 8197 + k /\ d f' = 4099 + k /\ count f' = 37 - k /\
    (forall a, ~ (4099 <= a < 4099 + k) -> mem f' a = pattern a) /\
    (4099 <= 8197 \/ 8197 + 37 <= 4099 ->
     forall i, 0 <= i < k -> mem f' (4099 + i) = pattern (8197 + i)).
Proof.
  apply (words_phase_copies_a_prefix rv64 40 pattern 4099 8197 37);
    [concrete_region | concrete_region | lia].
Defined.

(* ===================================================================== *)
(** ** How calls compose *)

(** X10. Moving a block and moving it back restores memory everywhere
    outside the destination, the source bytes that the first move overwrote
    included. *)
Theorem memmove_there_and_back c fuel m dest src n :
  region c dest n -> region c src n -> n < Z.of_nat fuel ->
  exists r1 r2,
    __memmove c fuel m dest src n = Some r1 /\
    __memmove c fuel (mem_after r1) src dest n = Some r2 /\
    (forall i, 0 <= i < n -> mem_after r2 (src + i) = m (src + i)) /\
    (forall a, ~ (dest <= a < dest + n) -> mem_after r2 a = m a).
Proof.
  intros Hd Hs Hfuel.
  destruct (memmove_effects c fuel m dest src n Hd Hs Hfuel)
    as (r1 & Hrun1 & _ & Hframe1 & Hdata1 & _).
  destruct (memmove_effects c fuel (mem_after r1) src dest n Hs Hd Hfuel)
    as (r2 & Hrun2 & _ & Hframe2 & Hdata2 & _).
  exists r1, r2. split; [exact Hrun1|]. split; [exact Hrun2|].
  assert (forall i, 0 <= i < n -> mem_after r2 (src + i) = m (src + i))
    as Hback by (intros i Hi; rewrite Hdata2, Hdata1 by lia; reflexivity).
  split; [exact Hback|].
  intros a Ha.
  destruct (Z_le_dec src a) as [Hle | Hgt];
    [destruct (Z_lt_dec a (src + n)) as [Hlt | Hge] |].
  - replace a with (src + (a - src)) by lia. apply Hback. lia.
  - rewrite Hframe2, Hframe1 by lia. reflexivity.
  - rewrite Hframe2, Hframe1 by lia. reflexivity.
Qed.

Lemma memmove_there_and_back_witness :
  exists r1 r2,
    __memmove rv64 40 pattern 8195 8192 37 = Some r1 /\
    __memmove rv64 40 (mem_after r1) 8192 8195 37 = Some r2 /\
    (forall i, 0 <= i < 37 -> mem_after r2 (8192 + i) = pattern (8192 + i)) /\
    (forall a, ~ (8195 <= a < 8195 + 37) -> mem_after r2 a = pattern a).
Proof.
  apply (memmove_there_and_back rv64 40 pattern 8195 8192 37);
    [concrete_region | concrete_region | lia].
Defined.

(** X11. Between non-overlapping regions a second identical [__memcpy]
    changes nothing. *)
Theorem memcpy_twice_is_memcpy_once c fuel m dest src n :
  region c dest n -> region c src n ->
  dest + n <= src \/ src + n <= dest ->
  n < Z.of_nat fuel ->
  exists r1 r2,
    __memcpy c fuel m dest src n = Some r1 /\
    __memcpy c fuel (mem_after r1) dest src n = Some r2 /\
    forall a, mem_after r2 a = mem_after r1 a.
Proof.
  intros Hd Hs Hdisj Hfuel. pose proof Hd as (Hn & _).
  destruct (memcpy_effects c fuel m dest src n Hd Hs Hfuel)
    as (r1 & Hrun1 & _ & Hframe1 & Hdata1 & _).
  destruct (memcpy_effects c fuel (mem_after r1) dest src n Hd Hs Hfuel)
    as (r2 & Hrun2 & _ & Hframe2 & Hdata2 & _).
  exists r1, r2. split; [exact Hrun1|]. split; [exact Hrun2|].
  intros a.
  destruct (Z_le_dec dest a) as [Hle | Hgt];
    [destruct (Z_lt_dec a (dest + n)) as [Hlt | Hge] |].
  - replace a with (dest + (a - dest)) by lia.
    rewrite Hdata2, Hdata1 by lia. apply Hframe1. lia.
  - apply Hframe2. lia.
  - apply Hframe2. lia.
Qed.

Lemma memcpy_twice_is_memcpy_once_witness :
  exists r1 r2,
    __memcpy rv64 40 pattern 4099 8197 37 = Some r1 /\
    __memcpy rv64 40 (mem_after r1) 4099 8197 37 = Some r2 /\
    forall a, mem_after r2 a = mem_after r1 a.
Proof.
  apply (memcpy_twice_is_memcpy_once rv64 40 pattern 4099 8197 37);
    [concrete_region | concrete_region | lia | lia].
Defined.

(** X12. A copy can be split: [a + b] bytes in one [__memcpy] leave the
    same memory as [a] bytes followed by the next [b] bytes, wherever the
    cut falls with respect to word boundaries and thresholds. *)
Theorem memcpy_in_two_pieces c fuel m dest src a b :
  0 <= a -> 0 <= b ->
  region c dest (a + b) -> region c src (a + b) ->
  dest <= src \/ src + (a + b) <= dest ->
  a + b < Z.of_nat fuel ->
  exists r r1 r2,
    __memcpy c fuel m dest src (a + b) = Some r /\
    __memcpy c fuel m dest src a = Some r1 /\
    __memcpy c fuel (mem_after r1) (dest + a) (src + a) b = Some r2 /\
    forall x, mem_after r2 x = mem_after r x.
Proof.
  intros Ha Hb Hd Hs Hsafe Hfuel.
  pose proof Hd as (_ & Hd0 & Hdm). pose proof Hs as (_ & Hs0 & Hsm).
  destruct (memcpy_effects c fuel m dest src (a + b) Hd Hs Hfuel)
    as (r & Hrun & _ & Hframe & Hdata & _).
  destruct (memcpy_effects c fuel m dest src a)
    as (r1 & Hrun1 & _ & Hframe1 & Hdata1 & _);
    [unfold region; lia | unfold region; lia | lia |].
  destruct (memcpy_effects c fuel (mem_after r1) (dest + a) (src + a) b)
    as (r2 & Hrun2 & _ & Hframe2 & Hdata2 & _);
    [unfold region; lia | unfold region; lia | lia |].
  exists r, r1, r2. repeat split; auto.
  intros x.
  assert (x < dest \/ dest <= x < dest + a \/ dest + a <= x < dest + a + b \/
          dest + a + b <= x) as [Hlo | [H1 | [H2 | Hhi]]] by lia.
  - rewrite Hframe2, Hframe1, Hframe by lia. reflexivity.
  - rewrite Hframe2 by lia.
    replace x with (dest + (x - dest)) by lia.
    rewrite Hdata1, Hdata by lia. reflexivity.
  - replace x with (dest + a + (x - dest - a)) at 1 by lia.
    rewrite Hdata2 by lia. rewrite Hframe1 by lia.
    replace x with (dest + (x - dest)) by lia.
    rewrite Hdata by lia. f_equal. lia.
  - rewrite Hframe2, Hframe1, Hframe by lia. reflexivity.
Qed.

Lemma memcpy_in_two_pieces_witness :
  exists r r1 r2,
    __memcpy rv64 40 pattern 4099 8197 (13 + 24) = Some r /\
    __memcpy rv64 40 pattern 4099 8197 13 = Some r1 /\
    __memcpy rv64 40 (mem_after r1) (4099 + 13) (8197 + 13) 24 = Some r2 /\
    forall x, mem_after r2 x = mem_after r x.
Proof.
  apply (memcpy_in_two_pieces rv64 40 pattern 4099 8197 13 24);
    [lia | lia | concrete_region | concrete_region | lia | lia].
Defined.

(** X13. The memory left by [__memcpy] (where an ascending copy is
    harmless) and by [__memmove] (always) is the same for every word size
    and either setting of CONFIG_HAVE_EFFICIENT_UNALIGNED_ACCESS. *)
Theorem result_is_independent_of_configuration c1 c2 fuel m dest src n :
  region c1 dest n -> region c1 src n ->
  region c2 dest n -> region c2 src n ->
  n < Z.of_nat fuel ->
  (dest <= src \/ src + n <= dest ->
   exists r1 r2,
     __memcpy c1 fuel m dest src n = Some r1 /\
     __memcpy c2 fuel m dest src n = Some r2 /\
     forall a, mem_after r1 a = mem_after r2 a) /\
  (exists r1 r2,
     __memmove c1 fuel m dest src n = Some r1 /\
     __memmove c2 fuel m dest src n = Some r2 /\
     forall a, mem_after r1 a = mem_after r2 a).
Proof.
  intros Hd1 Hs1 Hd2 Hs2 Hfuel.
  assert (forall (m1 m2 : memory),
            (forall a, ~ (dest <= a < dest + n) -> m1 a = m a) ->
            (forall a, ~ (dest <= a < dest + n) -> m2 a = m a) ->
            (forall i, 0 <= i < n -> m1 (dest + i) = m (src + i)) ->
            (forall i, 0 <= i < n -> m2 (dest + i) = m (src + i)) ->
            forall a, m1 a = m2 a) as Hsame.
  { intros m1 m2 F1 F2 D1 D2 a.
    destruct (Z_le_dec dest a) as [Hle | Hgt];
      [destruct (Z_lt_dec a (dest + n)) as [Hlt | Hge] |].
    - replace a with (dest + (a - dest)) by lia.
      rewrite D1, D2 by lia. reflexivity.
    - rewrite F1, F2 by lia. reflexivity.
    - rewrite F1, F2 by lia. reflexivity. }
  split.
  - intros Hsafe.
    destruct (memcpy_effects c1 fuel m dest src n Hd1 Hs1 Hfuel)
      as (r1 & Hrun1 & _ & Hframe1 & Hdata1 & _).
    destruct (memcpy_effects c2 fuel m dest src n Hd2 Hs2 Hfuel)
      as (r2 & Hrun2 & _ & Hframe2 & Hdata2 & _).
    exists r1, r2. repeat split; auto.
  - destruct (memmove_effects c1 fuel m dest src n Hd1 Hs1 Hfuel)
      as (r1 & Hrun1 & _ & Hframe1 & Hdata1 & _).
    destruct (memmove_effects c2 fuel m dest src n Hd2 Hs2 Hfuel)
      as (r2 & Hrun2 & _ & Hframe2 & Hdata2 & _).
    exists r1, r2. repeat split; auto.
Qed.

Lemma result_is_independent_of_configuration_witness :
  (8192 <= 8195 \/ 8195 + 37 <= 8192 ->
   exists r1 r2,
     __memcpy rv32 40 pattern 8192 8195 37 = Some r1 /\
     __memcpy rv64_unaligned_ok 40 pattern 8192 8195 37 = Some r2 /\
     forall a, mem_after r1 a = mem_after r2 a) /\
  (exists r1 r2,
     __memmove rv32 40 pattern 8192 8195 37 = Some r1 /\
     __memmove rv64_unaligned_ok 40 pattern 8192 8195 37 = Some r2 /\
     forall a, mem_after r1 a = mem_after r2 a).
Proof.
  apply (result_is_independent_of_configuration rv32 rv64_unaligned_ok 40
           pattern 8192 8195 37);
    [concrete_region | concrete_region | concrete_region | concrete_region
     | lia].
Defined.

(** X14. Where an ascending copy is harmless, [__memcpy] of any length
    leaves exactly the memory that the byte-by-byte ascending copy
    leaves. *)
Theorem memcpy_agrees_with_bytewise_copy c fuel m dest src n :
  region c dest n -> region c src n ->
  dest <= src \/ src + n <= dest ->
  n < Z.of_nat fuel ->
  exists r,
    __memcpy c fuel m dest src n = Some r /\
    forall a, mem_after r a = bytewise_copy (Z.to_nat n) m dest src a.
Proof.
  intros Hd Hs Hsafe Hfuel. pose proof Hd as (Hn & _).
  destruct (memcpy_effects c fuel m dest src n Hd Hs Hfuel)
    as (r & Hrun & _ & Hframe & Hdata & _).
  exists r. split; [exact Hrun|]. intros a.
  destruct (Z_le_dec dest a) as [Hle | Hgt];
    [destruct (Z_lt_dec a (dest + n)) as [Hlt | Hge] |].
  - replace a with (dest + (a - dest)) by lia.
    rewrite Hdata, bytewise_copy_data by lia. reflexivity.
  - rewrite Hframe, bytewise_copy_frame by lia. reflexivity.
  - rewrite Hframe, bytewise_copy_frame by lia. reflexivity.
Qed.

Lemma memcpy_agrees_with_bytewise_copy_witness :
  exists r,
    __memcpy rv64 40 pattern 8192 8195 37 = Some r /\
    forall a, mem_after r a = bytewise_copy (Z.to_nat 37) pattern 8192 8195 a.
Proof.
  apply (memcpy_agrees_with_bytewise_copy rv64 40 pattern 8192 8195 37);
    [concrete_region | concrete_region | lia | lia].
Defined.

(** X15. No load of [__memmove] ends past the end of the source, and on
    the backward path ([dest > src], overlapping) no load starts before the
    source either. *)
Theorem memmove_loads_stay_in_source c fuel m dest src n :
  region c dest n -> region c src n -> n < Z.of_nat fuel ->
  exists r,
    __memmove c fuel m dest src n = Some r /\
    forall a w, In (Load a w) (accesses r) ->
                a + w <= src + n /\ (src < dest < src + n -> src <= a).
Proof.
  intros Hd Hs Hfuel. pose proof Hd as (Hn & _).
  assert (dest < src \/ src + n <= dest \/ src < dest < src + n \/
          (dest = src /\ 0 < n)) as [Hlt | [Hpast | [Hov | [-> Hpos]]]] by lia.
  1, 2: rewrite memmove_delegates by (auto; lia);
        destruct (memcpy_effects c fuel m dest src n Hd Hs Hfuel)
          as (r & Hrun & _ & _ & _ & _ & Hld);
        exists r; split; [exact Hrun|];
        rewrite Forall_forall in Hld;
        intros a w Hin; split; [apply (Hld _ Hin) | lia].
  - rewrite memmove_backward by assumption.
    eexists. split; [reflexivity|]. cbn [accesses].
    pose proof (backward_accesses_bounds (Z.to_nat n) dest src) as Hb.
    rewrite Forall_forall in Hb.
    intros a w Hin. apply Hb in Hin. lia.
  - rewrite memmove_in_place by assumption.
    eexists. split; [reflexivity|]. cbn [accesses]. intros a w [].
Qed.

Lemma memmove_loads_stay_in_source_witness :
  exists r,
    __memmove rv64 40 pattern 8195 8192 37 = Some r /\
    forall a w, In (Load a w) (accesses r) ->
                a + w <= 8192 + 37 /\ (8192 < 8195 < 8192 + 37 -> 8192 <= a).
Proof.
  apply (memmove_loads_stay_in_source rv64 40 pattern 8195 8192 37);
    [concrete_region | concrete_region | lia].
Defined.

(* ===================================================================== *)
(** ** Which bytes are stored, and in which order *)

Lemma byte_range_S a n : byte_range a (S n) = a :: byte_range (a + 1) n.
Proof.
  unfold byte_range. cbn [seq map]. f_equal; [lia|].
  rewrite <- seq_shift, map_map. apply map_ext. intros i. lia.
Qed.

Lemma byte_range_app a n1 n2 b :
  b = a + Z.of_nat n1 ->
  byte_range a n1 ++ byte_range b n2 = byte_range a (n1 + n2).
Proof.
  intros ->. revert a. induction n1 as [|n1 IH]; intros a.
  - cbn [Nat.add]. unfold byte_range at 1. cbn. f_equal. lia.
  - cbn [Nat.add]. rewrite !byte_range_S. cbn [app]. f_equal.
    rewrite <- IH. f_equal. f_equal. lia.
Qed.

Lemma byte_range_snoc a n :
  byte_range a (S n) = byte_range a n ++ [a + Z.of_nat n].
Proof.
  replace (S n) with (n + 1)%nat by lia.
  rewrite <- (byte_range_app a n 1 (a + Z.of_nat n)) by reflexivity.
  f_equal. unfold byte_range. cbn. f_equal. lia.
Qed.

Lemma stored_bytes_app t1 t2 :
  stored_bytes (t1 ++ t2) = stored_bytes t1 ++ stored_bytes t2.
Proof.
  induction t1 as [|[a w | a w] t1 IH]; cbn [app stored_bytes]; auto.
  now rewrite IH, app_assoc.
Qed.

Lemma stored_bytewise n :
  forall d s, stored_bytes (bytewise_accesses n d s) = byte_range d n.
Proof.
  induction n as [|n IH]; intros d s; [reflexivity|].
  cbn [bytewise_accesses stored_bytes]. rewrite IH.
  change (Z.to_nat 1) with 1%nat.
  now rewrite byte_range_app by lia.
Qed.

Lemma stored_words c n :
  forall d s,
  stored_bytes (word_accesses c n d s) = byte_range d (n * word_len c).
Proof.
  induction n as [|n IH]; intros d s; [reflexivity|].
  cbn [word_accesses stored_bytes]. rewrite IH.
  rewrite byte_range_app by (unfold word_len; word_cases c; lia).
  reflexivity.
Qed.

Lemma stored_shifted c n :
  forall d s,
  stored_bytes (shifted_accesses c n d s) = byte_range d (n * word_len c).
Proof.
  induction n as [|n IH]; intros d s; [reflexivity|].
  cbn [shifted_accesses stored_bytes]. rewrite IH.
  rewrite byte_range_app by (unfold word_len; word_cases c; lia).
  reflexivity.
Qed.

Lemma stored_backward n :
  forall dest src,
  stored_bytes (backward_accesses n dest src) = rev (byte_range dest n).
Proof.
  induction n as [|n IH]; intros dest src; [reflexivity|].
  cbn [backward_accesses stored_bytes]. rewrite IH, byte_range_snoc.
  rewrite rev_app_distr. cbn [rev app]. f_equal.
  change (Z.to_nat 1) with 1%nat. unfold byte_range. cbn. f_equal. lia.
Qed.

Lemma memcpy_accesses_stored c dest src n :
  0 <= n ->
  stored_bytes (memcpy_accesses c dest src n) = byte_range dest (Z.to_nat n).
Proof.
  intros Hn. unfold memcpy_accesses.
  destruct (Z.ltb_spec n (MIN_THRESHOLD c)) as [Hsmall | Hbig];
    [apply stored_bytewise|].
  rewrite MIN_THRESHOLD_eq in Hbig.
  assert (0 <= fixup_bytes c dest < bytes_long c) as Hk
      by (unfold fixup_bytes; destruct (HAVE_EFFICIENT_UNALIGNED_ACCESS c);
          word_cases c; rewrite HW in *; zlia).
  set (k := fixup_bytes c dest) in *. clearbody k.
  rewrite stored_bytes_app, stored_bytewise.
  unfold word_phase_accesses.
  destruct (HAVE_EFFICIENT_UNALIGNED_ACCESS c
            || ((src + k) mod bytes_long c =? 0)).
  - rewrite stored_bytes_app, stored_words, stored_bytewise.
    rewrite !byte_range_app.
    + f_equal. unfold word_len. word_cases c; rewrite HW in *; zlia.
    + lia.
    + unfold word_len. word_cases c; rewrite HW in *; zlia.
  - cbn [stored_bytes].
    rewrite stored_bytes_app, stored_shifted, stored_bytewise.
    assert (0 <= shifted_turns c (n - k) /\
            0 <= n - k - shifted_turns c (n - k) * bytes_long c) as [Ht Hr]
        by (unfold shifted_turns; rewrite mask_eq;
            word_cases c; rewrite HW in *; zlia).
    rewrite !byte_range_app.
    + f_equal. unfold word_len. word_cases c; rewrite HW in *; lia.
    + lia.
    + unfold word_len. word_cases c; rewrite HW in *; lia.
Qed.

(** X16. [__memcpy] stores every byte of [dest[0..count)] exactly once and
    in ascending address order, whichever of its loops does the storing. *)
Theorem memcpy_stores_each_byte_once_ascending c fuel m dest src n :
  region c dest n -> region c src n -> n < Z.of_nat fuel ->
  exists r,
    __memcpy c fuel m dest src n = Some r /\
    stored_bytes (accesses r) = byte_range dest (Z.to_nat n).
Proof.
  intros Hd Hs Hfuel. pose proof Hd as (Hn & _).
  destruct (memcpy_accesses_exact c fuel m dest src n Hd Hs Hfuel)
    as (r & Hrun & Hacc).
  exists r. split; [exact Hrun|].
  rewrite Hacc. now apply memcpy_accesses_stored.
Qed.

Lemma memcpy_stores_each_byte_once_ascending_witness :
  exists r,
    __memcpy rv64 40 pattern 4099 8197 37 = Some r /\
    stored_bytes (accesses r) = byte_range 4099 (Z.to_nat 37).
Proof.
  apply (memcpy_stores_each_byte_once_ascending rv64 40 pattern 4099 8197 37);
    [concrete_region | concrete_region | lia].
Defined.

(** X17. When [dest > src] and the regions overlap, [__memmove] stores
    every byte of [dest[0..count)] exactly once and in descending address
    order; when it hands over to [__memcpy] the order is ascending. *)
Theorem memmove_store_order c fuel m dest src n :
  region c dest n -> region c src n -> n < Z.of_nat fuel ->
  exists r,
    __memmove c fuel m dest src n = Some r /\
    (src < dest < src + n ->
     stored_bytes (accesses r) = rev (byte_range dest (Z.to_nat n))) /\
    (dest < src \/ src + n <= dest ->
     stored_bytes (accesses r) = byte_range dest (Z.to_nat n)).
Proof.
  intros Hd Hs Hfuel. pose proof Hd as (Hn & _).
  assert (dest < src \/ src + n <= dest \/ src < dest < src + n \/
          (dest = src /\ 0 < n)) as [Hlt | [Hpast | [Hov | [-> Hpos]]]] by lia.
  1, 2: rewrite memmove_delegates by (auto; lia);
        destruct (memcpy_accesses_exact c fuel m dest src n Hd Hs Hfuel)
          as (r & Hrun & Hacc);
        exists r; split; [exact Hrun|]; split; [lia|];
        intros _; rewrite Hacc; now apply memcpy_accesses_stored.
  - rewrite memmove_backward by assumption.
    eexists. split; [reflexivity|]. cbn [accesses].
    split; [intros _; apply stored_backward | lia].
  - rewrite memmove_in_place by assumption.
    eexists. split; [reflexivity|]. split; lia.
Qed.

Lemma memmove_store_order_witness :
  exists r,
    __memmove rv64 40 pattern 8195 8192 37 = Some r /\
    (8192 < 8195 < 8192 + 37 ->
     stored_bytes (accesses r) = rev (byte_range 8195 (Z.to_nat 37))) /\
    (8195 < 8192 \/ 8192 + 37 <= 8195 ->
     stored_bytes (accesses r) = byte_range 8195 (Z.to_nat 37)).
Proof.
  apply (memmove_store_order rv64 40 pattern 8195 8192 37);
    [concrete_region | concrete_region | lia].
Defined.
